(** * Greedy overlap assembler of [Lab5/ex1.py]

    A shallow embedding of the fragment-reassembly code of the repository
    ([longest_overlap], [build_prefix_index], [update_prefix_index] and
    [greedy_assemble_indexed]) together with the properties its
    specification states about it.

    Modelling conventions.
    - A Python [str] is a [list ascii]; [Optional[str]] is an [option].
    - Python integers are [Z]; list positions produced by [enumerate] are
      [nat].
    - Slices follow Python: a negative bound counts from the end and every
      bound is clamped to the length of the string.
    - The prefix index, a [Dict[str, Set[int]]], is a [gmap] whose values
      are [gset]s.
    - Python lists are mutable objects: they live in a store, and the
      engine reads and writes its working list through a reference.
    - Operations that can raise in Python ([s.remove(i)], [reads[j]]) return
      in an error monad.

    The second part of the file covers the rest of [Lab5/ex1.py] that
    computes: [sample_reads], with the random generator as a sequence of
    draws, [validate_and_report_reads] and the diagnostics of [main]. *)

From Stdlib Require Import ZArith Lia Ascii.
From stdpp Require Import gmap list fin_maps sorting strings.

Local Open Scope Z_scope.

(* [naive_solver] clears hypotheses it has already used up. *)
#[local] Set Warnings "-clear-no-such-hyp".

(** ** Python strings and slices *)

Abbreviation str := (list ascii).

Definition len (s : str) : Z := Z.of_nat (length s).

(** [slice.indices] for a step of one: the position in [0 .. n] a bound [i]
    denotes in a sequence of length [n]. *)
Definition clamp (n : nat) (i : Z) : nat :=
  if i <? 0 then Z.to_nat (Z.max 0 (Z.of_nat n + i))
  else Z.to_nat (Z.min i (Z.of_nat n)).

(** [s[start:]] *)
Definition slice_from (s : str) (start : Z) : str := drop (clamp (length s) start) s.

(** [s[:stop]] *)
Definition slice_to (s : str) (stop : Z) : str := take (clamp (length s) stop) s.

(** [range(start, stop, -1)]: [start, start - 1, ..., stop + 1]. *)
Definition range_desc (start stop : Z) : list Z :=
  (λ n : nat, start - Z.of_nat n) <$> seq 0 (Z.to_nat (start - stop)).

(** Truthiness of an [Optional[str]]: [None] and the empty string are falsy. *)
Definition truthy (r : option str) : bool :=
  match r with
  | Some (_ :: _) => true
  | _ => false
  end.

(** ** The Overlap Matcher *)

(** The [for olen in range(...)] loop of [longest_overlap]: the first
    length at which the suffix of [a] equals the prefix of [b], and [0] when
    the loop runs to its end. *)
Fixpoint first_match (a b : str) (olens : list Z) : Z :=
  match olens with
  | [] => 0
  | olen :: rest =>
      if decide (slice_from a (- olen) = slice_to b olen) then olen
      else first_match a b rest
  end.

Definition longest_overlap (a b : str) (min_olap : Z) : Z :=
  let max_olap := Z.min (len a) (len b) in
  if decide (slice_from a (- min_olap) ≠ slice_to b min_olap) then 0
  else first_match a b (range_desc max_olap (min_olap - 1)).

(** *** What the specification asks of the matcher *)

(** The last [L] characters of [a] equal the first [L] characters of [b]. *)
Definition overlap_at (a b : str) (L : Z) : Prop :=
  0 ≤ L ∧ L ≤ len a ∧ L ≤ len b ∧
  drop (length a - Z.to_nat L) a = take (Z.to_nat L) b.

(** [L] is an admissible overlap for the minimum [m]. *)
Definition valid_overlap (a b : str) (m L : Z) : Prop :=
  m ≤ L ∧ L ≤ Z.min (len a) (len b) ∧ overlap_at a b L.

(** The contract of section 4.1: [r] is the largest admissible overlap, or
    [0] when there is none. *)
Definition largest_overlap (a b : str) (m r : Z) : Prop :=
  (valid_overlap a b m r ∧ ∀ L, valid_overlap a b m L → L ≤ r) ∨
  (r = 0 ∧ ∀ L, ¬ valid_overlap a b m L).

(** The early-exit test of [longest_overlap], in the words of the
    specification: the length-[m] suffix of [a] equals the length-[m]
    prefix of [b] (each is the whole string when it is shorter than [m]). *)
Definition guard_passes (a b : str) (m : Z) : Prop :=
  drop (length a - Z.to_nat m) a = take (Z.to_nat m) b.

(** String literals as Python strings. *)
Definition lit (x : string) : str := String.list_ascii_of_string x.

(** ** Exceptions *)

(** [Dangling] is the dereference of a reference that designates no list.
    Python has no such outcome, every reference being live; it keeps the
    store operations total.  [OutOfFuel] is the exhaustion of the iteration
    budget of the model's [while] loop, also no Python outcome. *)
Inductive exn : Type := KeyError | IndexError | TypeError | Dangling | OutOfFuel.

Inductive result (A : Type) : Type :=
  | Returned (a : A)
  | Raised (e : exn).
Arguments Returned {A} a.
Arguments Raised {A} e.

#[export] Instance result_ret : MRet result := λ A a, Returned a.
#[export] Instance result_bind : MBind result := λ A B f x,
  match x with
  | Returned a => f a
  | Raised e => Raised e
  end.

(** ** The store of list objects *)

Abbreviation loc := positive.
Abbreviation pylist := (list (option str)).
Abbreviation store := (gmap positive (list (option (list ascii)))).
Abbreviation index := (gmap (list ascii) (gset nat)).

(** A list of fragments, as the caller builds it from string literals. *)
Definition fragments (l : list string) : pylist := (λ x, Some (lit x)) <$> l.

(** A store that holds one list, at reference [1]. *)
Definition store_of (xs : pylist) : store := {[1%positive := xs]}.

(** The list a reference designates. *)
Definition list_load (h : store) (l : loc) : result pylist :=
  match h !! l with
  | Some xs => Returned xs
  | None => Raised Dangling
  end.

(** [l[j]] for a position [j >= 0]. *)
Definition list_getitem (h : store) (l : loc) (j : nat) : result (option str) :=
  xs ← list_load h l;
  match xs !! j with
  | Some v => Returned v
  | None => Raised IndexError
  end.

(** [l[j] = v] for a position [j >= 0]: the object is updated in place. *)
Definition list_setitem (h : store) (l : loc) (j : nat) (v : option str) : result store :=
  xs ← list_load h l;
  if decide (j < length xs)%nat then Returned (<[l := <[j := v]> xs]> h)
  else Raised IndexError.

(** [list(l)]: a new list object with the same elements. *)
Definition list_copy (h : store) (l : loc) : result (loc * store) :=
  xs ← list_load h l;
  let l' := fresh (dom h) in
  Returned (l', <[l' := xs]> h).

(** ** The Prefix Index *)

(** The test [r and len(r) >= k] (the negation of [not r or len(r) < k]),
    giving the string when it passes. *)
Definition usable (r : option str) (k : Z) : option str :=
  match r with
  | Some (c :: r') => if len (c :: r') <? k then None else Some (c :: r')
  | _ => None
  end.

(** [idx.setdefault(p, set()).add(i)] *)
Definition index_add (idx : index) (p : str) (i : nat) : index :=
  <[p := {[i]} ∪ default ∅ (idx !! p)]> idx.

(** The loop of [build_prefix_index] from position [i] on. *)
Fixpoint build_loop (idx : index) (i : nat) (reads : pylist) (k : Z) : index :=
  match reads with
  | [] => idx
  | r :: rest =>
      let idx' :=
        match usable r k with
        | Some r' => index_add idx (slice_to r' k) i
        | None => idx
        end in
      build_loop idx' (S i) rest k
  end.

Definition build_prefix_index (reads : pylist) (k : Z) : index :=
  build_loop ∅ 0 reads k.

(** [s.remove(i)] raises [KeyError] when [i] is not in [s]. *)
Definition set_remove (i : nat) (s : gset nat) : result (gset nat) :=
  if decide (i ∈ s) then Returned (s ∖ {[i]}) else Raised KeyError.

(** The removal of [update_prefix_index]: [s = idx.get(p_old)] and the
    conditional that follows.  The set [s] is the bucket stored in the
    dictionary, not a copy: after [s.remove(i)] the dictionary holds the
    smaller set. *)
Definition index_discard (idx : index) (p_old : str) (i : nat) : result index :=
  match idx !! p_old with
  | Some s =>
      if decide (s ≠ ∅ ∧ i ∈ s) then
        s' ← set_remove i s;
        Returned (if decide (s' = ∅) then delete p_old idx else <[p_old := s']> idx)
      else Returned idx
  | None => Returned idx
  end.

Definition update_prefix_index (idx : index) (i : nat) (old new : option str) (k : Z)
    : result index :=
  idx1 ← match usable old k with
         | Some old' => index_discard idx (slice_to old' k) i
         | None => Returned idx
         end;
  match usable new k with
  | Some new' => Returned (index_add idx1 (slice_to new' k) i)
  | None => Returned idx1
  end.

(** ** The Greedy Merge Engine *)

(** The mutable state of a run: the store, holding the working list, and the
    index. *)
Record state : Type := State { st_heap : store; st_idx : index }.

(** A record of one merge, kept for the statements only (the code keeps no
    log): fragment [ev_i], with sequence [ev_old_i], absorbed fragment
    [ev_j], with sequence [ev_old_j], on an overlap of [ev_ol] characters. *)
Record merge_event : Type := MergeEvent {
  ev_i : nat;
  ev_j : nat;
  ev_ol : Z;
  ev_old_i : str;
  ev_old_j : str;
  ev_merged : str;
  ev_before : state;
  ev_after : state
}.

(** [for j in list(cand_idxs)]: the choice of the best partner. *)
Fixpoint best_candidate (h : store) (reads : loc) (i : nat) (r : str) (min_olap : Z)
    (cands : list nat) (best_j : option nat) (best_ol : Z) : result (option nat * Z) :=
  match cands with
  | [] => Returned (best_j, best_ol)
  | j :: rest =>
      if decide (j = i) then best_candidate h reads i r min_olap rest best_j best_ol
      else
        rj ← list_getitem h reads j;
        match rj with
        | Some (c :: rj') =>
            let ol := longest_overlap r (c :: rj') min_olap in
            if best_ol <? ol then best_candidate h reads i r min_olap rest (Some j) ol
            else best_candidate h reads i r min_olap rest best_j best_ol
        | _ => best_candidate h reads i r min_olap rest best_j best_ol
        end
  end.

(** The order in which Python enumerates a set is not specified, and may
    depend on the history of the set object: an enumeration gives the order
    in which a set is listed in a given state of the run, at a given
    position of the scan. *)
Abbreviation enumeration := (state → nat → gset nat → list nat).

(** One enumeration: that of [elements], whatever the state. *)
Definition by_elements : enumeration := λ _ _ s, elements s.

Section Engine.

(** The engine is parametric in the enumeration of the candidate sets. *)
Variable order : enumeration.

Variables (k min_olap : Z) (reads : loc).

(** The body of [for i, r in enumerate(reads)] at position [i]; [r] is the
    element the iterator finds at [i] when it gets there. *)
Definition scan_fragment (st : state) (i : nat) : result (state * option merge_event) :=
  r ← list_getitem (st_heap st) reads i;
  match usable r k with
  | None => Returned (st, None)
  | Some r =>
      let suf := slice_from r (- k) in
      let cand_idxs := default ∅ (st_idx st !! suf) in
      if decide (cand_idxs = ∅) then Returned (st, None)
      else
        '(best_j, best_ol) ←
          best_candidate (st_heap st) reads i r min_olap (order st i cand_idxs) None 0;
        match best_j with
        | None => Returned (st, None)
        | Some best_j =>
            if best_ol <? min_olap then Returned (st, None)
            else
              old_i ← list_getitem (st_heap st) reads i;
              old_j ← list_getitem (st_heap st) reads best_j;
              rj ← list_getitem (st_heap st) reads best_j;
              match rj with
              | None => Raised TypeError
              | Some rj =>
                  let merged := r ++ slice_from rj best_ol in
                  h1 ← list_setitem (st_heap st) reads i (Some merged);
                  h2 ← list_setitem h1 reads best_j None;
                  idx1 ← update_prefix_index (st_idx st) i old_i (Some merged) k;
                  idx2 ← update_prefix_index idx1 best_j old_j None k;
                  let st' := State h2 idx2 in
                  Returned (st', Some (MergeEvent i best_j best_ol r rj merged st st'))
              end
        end
  end.

(** The [for] loop over the positions [ps]. *)
Fixpoint scan_all (st : state) (ps : list nat) : result (state * list merge_event) :=
  match ps with
  | [] => Returned (st, [])
  | i :: rest =>
      '(st1, ev) ← scan_fragment st i;
      '(st2, evs) ← scan_all st1 rest;
      Returned (st2, option_list ev ++ evs)
  end.

(** One pass.  The body never changes the length of the list, so the
    iterator visits the positions [0 .. len(reads) - 1]. *)
Definition pass (st : state) : result (state * list merge_event) :=
  xs ← list_load (st_heap st) reads;
  scan_all st (seq 0 (length xs)).

(** [while made_progress], with an iteration budget; the result lists the
    merges of each pass, in order. *)
Fixpoint assemble_loop (fuel : nat) (st : state)
    : result (state * list (list merge_event)) :=
  match fuel with
  | O => Raised OutOfFuel
  | S fuel' =>
      '(st1, evs) ← pass st;
      match evs with
      | [] => Returned (st1, [[]])
      | _ :: _ =>
          '(st2, log) ← assemble_loop fuel' st1;
          Returned (st2, evs :: log)
      end
  end.

End Engine.

(** ** The Contig Finalizer *)

(** The filter [if r] of the comprehension. *)
Definition keep_truthy (r : option str) : option str :=
  if truthy r then r else None.

(** [[r for r in reads if r]] *)
Definition contigs_of (xs : pylist) : list str := omap keep_truthy xs.

(** [contigs.sort(key=len, reverse=True)] is a stable sort: elements of
    equal length keep their order. *)
Fixpoint insert_by_len (x : str) (l : list str) : list str :=
  match l with
  | [] => [x]
  | y :: l' =>
      if (length y <=? length x)%nat then x :: y :: l'
      else y :: insert_by_len x l'
  end.

Fixpoint sort_by_len_desc (l : list str) : list str :=
  match l with
  | [] => []
  | x :: l' => insert_by_len x (sort_by_len_desc l')
  end.

(** ** The whole run *)

(** What a call leaves behind: the string it returns, the store, and, for
    the statements, the reference of its working list, its first state and
    the merges of every pass. *)
Record run : Type := Run {
  run_out : str;
  run_reads : loc;
  run_init : state;
  run_final : state;
  run_passes : list (list merge_event)
}.

Definition greedy_assemble_indexed (order : enumeration)
    (h : store) (reads_in : loc) (k min_olap : Z) : result run :=
  '(reads, h0) ← list_copy h reads_in;
  xs ← list_load h0 reads;
  let st0 := State h0 (build_prefix_index xs k) in
  '(st, log) ← assemble_loop order k min_olap reads (S (length xs)) st0;
  ys ← list_load (st_heap st) reads;
  let contigs := sort_by_len_desc (contigs_of ys) in
  Returned (Run (concat contigs) reads st0 st log).

(** ** Vocabulary of the statements *)

(** Identifier [i] is a member of the set keyed by [p]. *)
Definition indexed (idx : index) (p : str) (i : nat) : Prop :=
  ∃ s, idx !! p = Some s ∧ i ∈ s.

(** The key under which the index holds a fragment of value [r], if any. *)
Definition key (r : option str) (k : Z) : option str :=
  (λ r', slice_to r' k) <$> usable r k.

(** The index holds exactly the bindings of the fragments of [xs]. *)
Definition index_ok (k : Z) (xs : pylist) (idx : index) : Prop :=
  ∀ p i, indexed idx p i ↔ ∃ r, xs !! i = Some r ∧ key r k = Some p.

(** The invariant of section 3, clause by clause: an [Active] fragment of
    length at least [k] is in the set keyed by its first [k] characters and
    in no other; no fragment shorter than [k] is in any set; no [Retired]
    fragment is in any set; only identifiers of fragments are. *)
Record index_invariant (k : Z) (xs : pylist) (idx : index) : Prop := IndexInvariant {
  inv_active : ∀ i f, xs !! i = Some (Some f) → k ≤ len f →
    indexed idx (take (Z.to_nat k) f) i ∧
    ∀ p, indexed idx p i → p = take (Z.to_nat k) f;
  inv_short : ∀ p i f, indexed idx p i → xs !! i = Some (Some f) → ¬ len f < k;
  inv_retired : ∀ p i, indexed idx p i → xs !! i ≠ Some None;
  inv_range : ∀ p i, indexed idx p i → (i < length xs)%nat
}.

(** The number of [Active] (non-[None]) fragments. *)
Definition active (xs : pylist) : nat :=
  sum_list_with (λ r : option str, if r is Some _ then 1%nat else 0%nat) xs.

(** The sum of the lengths of the fragments. *)
Definition total_len (xs : pylist) : nat :=
  sum_list_with (λ r : option str, length (default [] r)) xs.

(** The characters the merges of [evs] saved. *)
Definition overlap_total (evs : list merge_event) : Z :=
  foldr (λ ev a, ev_ol ev + a) 0 evs.

(** The order of the finalizer on fragments with their identifiers: longer
    first, and among equal lengths the smaller identifier first. *)
Definition contig_before (x y : nat * str) : Prop :=
  (length y.2 < length x.2)%nat ∨ (length x.2 = length y.2 ∧ x.1 < y.1)%nat.

(** The fragments of [ys] that [g] keeps, with their identifiers, the first
    element of [ys] having identifier [i]. *)
Fixpoint select (g : option str → option str) (i : nat) (ys : pylist) : list (nat * str) :=
  match ys with
  | [] => []
  | r :: ys' =>
      match g r with
      | Some f => (i, f) :: select g (S i) ys'
      | None => select g (S i) ys'
      end
  end.

(** The [Active] fragments the filter [if r] drops: the empty ones. *)
Definition keep_empty (r : option str) : option str :=
  match r with
  | Some [] => Some []
  | _ => None
  end.

(** The sort of the finalizer, on fragments that carry their identifier. *)
Fixpoint insert_pair (x : nat * str) (l : list (nat * str)) : list (nat * str) :=
  match l with
  | [] => [x]
  | y :: l' =>
      if (length y.2 <=? length x.2)%nat then x :: y :: l'
      else y :: insert_pair x l'
  end.

Fixpoint sort_pairs (l : list (nat * str)) : list (nat * str) :=
  match l with
  | [] => []
  | x :: l' => insert_pair x (sort_pairs l')
  end.

(** The condition section 7 calls a configuration error. *)
Definition bad_threshold (xs : pylist) (k min_olap : Z) : Prop :=
  k ≤ 0 ∨ min_olap ≤ 0 ∨ ∃ f, Some f ∈ xs ∧ (len f < k ∨ len f < min_olap).

(** The binding [update_prefix_index] is asked to remove is not there. *)
Definition binding_missing (idx : index) (i : nat) (old : option str) (k : Z) : Prop :=
  ∃ p, key old k = Some p ∧ ¬ indexed idx p i.

Section Statements.

Variables (k min_olap : Z) (reads : loc).

(** The working list of [st] is [xs] and the index agrees with it. *)
Definition good_state (st : state) (xs : pylist) : Prop :=
  st_heap st !! reads = Some xs ∧ index_ok k xs (st_idx st).

(** The partners the engine considers for fragment [i] of value [r]. *)
Definition partner (st : state) (xs : pylist) (i : nat) (r : str) (j : nat) (rj : str)
    : Prop :=
  j ≠ i ∧ indexed (st_idx st) (slice_from r (- k)) j ∧
  xs !! j = Some (Some rj) ∧ rj ≠ [].

(** No partner of fragment [i] overlaps it enough to merge. *)
Definition no_partner (st : state) (xs : pylist) (i : nat) : Prop :=
  ∀ r, xs !! i = Some (Some r) → r ≠ [] → k ≤ len r →
  ∀ j rj, partner st xs i r j rj →
    longest_overlap r rj min_olap ≤ 0 ∨ longest_overlap r rj min_olap < min_olap.

(** The event [ev] records a merge step taken from the working list
    [xs]. *)
Record merge_ok (ev : merge_event) (xs : pylist) : Prop := MergeOk {
  mo_before : good_state (ev_before ev) xs;
  mo_i : xs !! ev_i ev = Some (Some (ev_old_i ev));
  mo_long : k ≤ len (ev_old_i ev);
  mo_nonempty : ev_old_i ev ≠ [];
  mo_partner : partner (ev_before ev) xs (ev_i ev) (ev_old_i ev) (ev_j ev) (ev_old_j ev);
  mo_ol : ev_ol ev = longest_overlap (ev_old_i ev) (ev_old_j ev) min_olap;
  mo_pos : 0 < ev_ol ev;
  mo_min : min_olap ≤ ev_ol ev;
  mo_best : ∀ j rj, partner (ev_before ev) xs (ev_i ev) (ev_old_i ev) j rj →
    longest_overlap (ev_old_i ev) rj min_olap ≤ ev_ol ev;
  mo_merged : ev_merged ev = ev_old_i ev ++ slice_from (ev_old_j ev) (ev_ol ev);
  mo_heap : st_heap (ev_after ev) =
    <[reads := <[ev_j ev := None]> (<[ev_i ev := Some (ev_merged ev)]> xs)]>
      (st_heap (ev_before ev));
  mo_after : index_ok k (<[ev_j ev := None]> (<[ev_i ev := Some (ev_merged ev)]> xs))
    (st_idx (ev_after ev))
}.

(** The events [evs] are consecutive merge steps from [st] to [st']. *)
Inductive chain : state → list merge_event → state → Prop :=
  | chain_nil st : chain st [] st
  | chain_cons st xs ev evs st' :
      ev_before ev = st → merge_ok ev xs → chain (ev_after ev) evs st' →
      chain st (ev :: evs) st'.

(** The passes of a run: passes that merged, then one that did not. *)
Definition log_shape (log : list (list merge_event)) : Prop :=
  ∃ productive, log = productive ++ [[]] ∧ Forall (λ evs, evs ≠ []) productive.

(** The accumulator of [best_candidate] is sound: empty with [best_ol = 0],
    or an admissible partner with its positive overlap. *)
Definition cand_inv (xs : pylist) (i : nat) (r : str) (bj : option nat) (bo : Z) : Prop :=
  match bj with
  | None => bo = 0
  | Some j =>
      j ≠ i ∧ ∃ rj, xs !! j = Some (Some rj) ∧ rj ≠ [] ∧
        bo = longest_overlap r rj min_olap ∧ 0 < bo
  end.

End Statements.

(** Merge correctness (section 8) for the event [ev] of a run whose working
    list is at [reads]: fragment [ev_i] held [ev_old_i] and fragment [ev_j]
    held [ev_old_j] before the step; after it, fragment [ev_i] holds
    [ev_merged] and fragment [ev_j] is retired; the first [len(i)]
    characters of [ev_merged] are [ev_old_i] and its last [len(j) - L]
    characters are [ev_old_j] from position [L] on. *)
Record merge_correct (reads : loc) (ev : merge_event) : Prop := MergeCorrect {
  mc_distinct : ev_j ev ≠ ev_i ev;
  mc_before : ∃ ys, st_heap (ev_before ev) !! reads = Some ys ∧
    ys !! ev_i ev = Some (Some (ev_old_i ev)) ∧
    ys !! ev_j ev = Some (Some (ev_old_j ev));
  mc_after : ∃ ys, st_heap (ev_after ev) !! reads = Some ys ∧
    ys !! ev_i ev = Some (Some (ev_merged ev)) ∧
    ys !! ev_j ev = Some None;
  mc_overlap : 1 ≤ ev_ol ev ∧ overlap_at (ev_old_i ev) (ev_old_j ev) (ev_ol ev);
  mc_prefix : take (length (ev_old_i ev)) (ev_merged ev) = ev_old_i ev;
  mc_suffix :
    drop (length (ev_merged ev) - (length (ev_old_j ev) - Z.to_nat (ev_ol ev)))
      (ev_merged ev) = drop (Z.to_nat (ev_ol ev)) (ev_old_j ev)
}.

(** The merge of [ev] retires exactly one fragment. *)
Definition retires_one (reads : loc) (ev : merge_event) : Prop :=
  ∃ ys ys', st_heap (ev_before ev) !! reads = Some ys ∧
    st_heap (ev_after ev) !! reads = Some ys' ∧
    (active ys' + 1 = active ys)%nat.

(** The termination bound as the specification words it, for an input of
    [N = length xs] fragments: at most [N - 1] merges and at most [N]
    passes, the last one without a merge. *)
Definition halts_within_N (order : enumeration) (h : store) (reads_in : loc)
    (xs : pylist) (k min_olap : Z) : Prop :=
  ∃ r, greedy_assemble_indexed order h reads_in k min_olap = Returned r ∧
    Z.of_nat (length (concat (run_passes r))) ≤ Z.of_nat (length xs) - 1 ∧
    (length (run_passes r) ≤ length xs)%nat ∧
    last (run_passes r) = Some [].

(** What a run [r] of the engine on the list [xs], found at [reads_in] in
    the store [h], consists of: a working list in a new object, first equal
    to [xs]; consecutive merge steps, pass after pass, the last pass without
    any; and the finalizer applied to the working list they leave, in which
    no fragment has a partner left to merge with. *)
Record run_ok (h : store) (reads_in : loc) (xs : pylist) (k min_olap : Z) (r : run)
    : Prop := RunOk {
  ro_fresh : h !! run_reads r = None;
  ro_init_heap : st_heap (run_init r) = <[run_reads r := xs]> h;
  ro_init : good_state k (run_reads r) (run_init r) xs;
  ro_chain : chain k min_olap (run_reads r) (run_init r) (concat (run_passes r)) (run_final r);
  ro_shape : log_shape (run_passes r);
  ro_final : ∃ ys,
    good_state k (run_reads r) (run_final r) ys ∧
    run_out r = concat (sort_by_len_desc (contigs_of ys)) ∧
    ∀ i, (i < length ys)%nat → no_partner k min_olap (run_final r) ys i
}.

(** ** Further vocabulary: buckets, substrings *)

(** [idx.get(p, set())]: the set of identifiers the index holds under [p]. *)
Definition bucket (idx : index) (p : str) : gset nat := default ∅ (idx !! p).

(** The dictionary holds no empty set, and every key has [k] characters. *)
Definition index_tidy (k : Z) (idx : index) : Prop :=
  ∀ p s, idx !! p = Some s → s ≠ ∅ ∧ len p = k.

(** [f in g] on strings: [f] occurs in [g] as a contiguous substring. *)
Definition infix_of (f g : str) : Prop := ∃ pre post, g = pre ++ f ++ post.

(** ** The read sampler and its checks *)

(** What can go wrong in [sample_reads] and [validate_and_report_reads]:
    the two exceptions they raise, and the exhaustion of the iteration
    budget of the model's [while] loop, which is no Python outcome. *)
Inductive failure : Type := ValueError | AssertionError | Exhausted.

Inductive outcome (A : Type) : Type :=
  | Done (a : A)
  | Failed (e : failure).
Arguments Done {A} a.
Arguments Failed {A} e.

#[export] Instance outcome_ret : MRet outcome := λ A a, Done a.
#[export] Instance outcome_bind : MBind outcome := λ A B f x,
  match x with
  | Done a => f a
  | Failed e => Failed e
  end.

(** [random.randint(a, b)]: some integer of [a .. b], and [ValueError] when
    the range is empty.  The generator is a sequence [draw] of integers, of
    which the call consumes the [n]-th; every integer of the range is the
    result for some value of it. *)
Definition randint (draw : nat → Z) (n : nat) (a b : Z) : outcome Z :=
  if b <? a then Failed ValueError else Done (a + draw n mod (b - a + 1)).

(** [s[start:stop]] *)
Definition slice (s : str) (start stop : Z) : str :=
  let lo := clamp (length s) start in
  let hi := clamp (length s) stop in
  take (hi - lo) (drop lo s).

(** The [while len(reads) < n_reads] loop of [sample_reads], with an
    iteration budget; [n] counts the draws made so far. *)
Fixpoint sample_loop (draw : nat → Z) (seq : str) (n_reads lo hi : Z)
    (fuel n : nat) (reads : list str) {struct fuel} : outcome (list str) :=
  if Z.of_nat (length reads) <? n_reads then
    match fuel with
    | O => Failed Exhausted
    | S fuel' =>
        k ← randint draw n lo hi;
        start ← randint draw (S n) 0 (len seq - k);
        let r := slice seq start (start + k) in
        if len r =? k then
          sample_loop draw seq n_reads lo hi fuel' (S (S n)) (reads ++ [r])
        else sample_loop draw seq n_reads lo hi fuel' (S (S n)) reads
    end
  else Done reads.

Definition sample_reads (draw : nat → Z) (fuel : nat) (seq : str) (n_reads : Z)
    (read_len_range : Z * Z) : outcome (list str) :=
  let '(lo, hi) := read_len_range in
  if len seq <? hi then Failed ValueError
  else sample_loop draw seq n_reads lo hi fuel 0 [].

(** [[i for i, r in enumerate(reads) if not (lo <= len(r) <= hi)]], the
    first element of [reads] having position [i]. *)
Fixpoint bad_positions (i : nat) (reads : list str) (lo hi : Z) : list nat :=
  match reads with
  | [] => []
  | r :: rest =>
      if (lo <=? len r) && (len r <=? hi) then bad_positions (S i) rest lo hi
      else i :: bad_positions (S i) rest lo hi
  end.

(** [validate_and_report_reads] returns nothing and prints one line; the
    model returns the three numbers of that line: the number of reads, the
    smallest length and the largest.  [min] and [max] of no length at all
    raise [ValueError]. *)
Definition validate_and_report_reads (reads : list str) (lo hi : Z)
    : outcome (Z * Z * Z) :=
  if negb (Z.of_nat (length reads) =? 2000) then Failed AssertionError
  else
    match bad_positions 0 reads lo hi with
    | _ :: _ => Failed AssertionError
    | [] =>
        match len <$> reads with
        | [] => Failed ValueError
        | x :: lengths =>
            Done (Z.of_nat (length reads), foldr Z.min x lengths, foldr Z.max x lengths)
        end
    end.

(** [f in g], as a test. *)
Fixpoint is_infix (f g : str) : bool :=
  if bool_decide (f `prefix_of` g) then true
  else match g with
       | [] => false
       | _ :: g' => is_infix f g'
       end.

(** The three diagnostics of [main]: [assembled == seq], [seq in assembled]
    and [assembled in seq]. *)
Definition diagnostics (assembled seq : str) : bool * bool * bool :=
  (bool_decide (assembled = seq), is_infix seq assembled, is_infix assembled seq).

(** ** Slices and ranges *)

Lemma slice_from_neg (a : str) (L : Z) :
  1 ≤ L → slice_from a (- L) = drop (length a - Z.to_nat L) a.
Proof.
  intros HL. unfold slice_from, clamp.
  destruct (Z.ltb_spec (- L) 0) as [_|?]; [|lia].
  f_equal. lia.
Qed.

Lemma slice_to_nonneg (b : str) (L : Z) :
  0 ≤ L → slice_to b L = take (Z.to_nat L) b.
Proof.
  intros HL. unfold slice_to, clamp.
  destruct (Z.ltb_spec L 0) as [?|_]; [lia|].
  destruct (Z.le_gt_cases L (Z.of_nat (length b))).
  - f_equal. lia.
  - rewrite !take_ge by lia. done.
Qed.

Lemma slice_from_nonneg (b : str) (L : Z) :
  0 ≤ L → slice_from b L = drop (Z.to_nat L) b.
Proof.
  intros HL. unfold slice_from, clamp.
  destruct (Z.ltb_spec L 0) as [?|_]; [lia|].
  destruct (Z.le_gt_cases L (Z.of_nat (length b))).
  - f_equal. lia.
  - rewrite !drop_ge by lia. done.
Qed.

Lemma range_desc_nil (start stop : Z) : start ≤ stop → range_desc start stop = [].
Proof.
  intros H. unfold range_desc.
  replace (Z.to_nat (start - stop)) with 0%nat by lia. done.
Qed.

Lemma range_desc_cons (start stop : Z) :
  stop < start → range_desc start stop = start :: range_desc (start - 1) stop.
Proof.
  intros H. unfold range_desc.
  replace (Z.to_nat (start - stop)) with (S (Z.to_nat (start - 1 - stop))) by lia.
  simpl. f_equal; [lia|].
  rewrite <- fmap_S_seq, <- list_fmap_compose.
  apply list_fmap_ext. intros _ n _. simpl. lia.
Qed.

(** The descending scan returns the first, hence largest, matching length
    of its range, and [0] when nothing in the range matches. *)
Lemma first_match_range (a b : str) (stop : Z) (n : nat) (start : Z) :
  Z.to_nat (start - stop) = n →
  let r := first_match a b (range_desc start stop) in
  (r = 0 ∧ ∀ L, stop < L ≤ start → slice_from a (- L) ≠ slice_to b L) ∨
  (stop < r ≤ start ∧ slice_from a (- r) = slice_to b r ∧
   ∀ L, r < L ≤ start → slice_from a (- L) ≠ slice_to b L).
Proof.
  revert start. induction n as [|n IH]; intros start Hn; simpl.
  - rewrite range_desc_nil by lia. simpl. left. split; [done|]. intros; lia.
  - rewrite range_desc_cons by lia. simpl.
    destruct (decide (slice_from a (- start) = slice_to b start)) as [He|Hne].
    + right. split; [lia|]. split; [done|]. intros; lia.
    + destruct (IH (start - 1) ltac:(lia)) as [[H0 Hall]|(Hr & Hm & Hall)].
      * left. split; [done|]. intros L HL.
        destruct (decide (L = start)) as [->|]; [done|]. apply Hall. lia.
      * right. split; [lia|]. split; [done|]. intros L HL.
        destruct (decide (L = start)) as [->|]; [done|]. apply Hall. lia.
Qed.

Lemma overlap_at_slices (a b : str) (L : Z) :
  1 ≤ L → L ≤ Z.min (len a) (len b) →
  overlap_at a b L ↔ slice_from a (- L) = slice_to b L.
Proof.
  intros H1 H2. unfold overlap_at, len in *.
  rewrite slice_from_neg, slice_to_nonneg by lia. intuition lia.
Qed.

Lemma guard_passes_slices (a b : str) (m : Z) :
  1 ≤ m → guard_passes a b m ↔ slice_from a (- m) = slice_to b m.
Proof.
  intros H. unfold guard_passes. by rewrite slice_from_neg, slice_to_nonneg by lia.
Qed.

(** Whatever the threshold, a positive result of the matcher is a genuine
    overlap that reaches the threshold and fits in both strings. *)
Lemma longest_overlap_pos (a b : str) (m : Z) :
  0 < longest_overlap a b m →
  m ≤ longest_overlap a b m ∧
  longest_overlap a b m ≤ Z.min (len a) (len b) ∧
  overlap_at a b (longest_overlap a b m).
Proof.
  unfold longest_overlap.
  destruct (decide (slice_from a (- m) ≠ slice_to b m)) as [|_]; [lia|].
  intros Hpos.
  destruct (first_match_range a b (m - 1) _ (Z.min (len a) (len b)) eq_refl)
    as [[H0 _]|(Hr & Hm & _)]; [lia|].
  split; [lia|]. split; [lia|]. apply overlap_at_slices; [lia|lia|done].
Qed.

(** ** C1: the contract of the matcher *)

(** C1, counterexample. With [a = "AB"], [b = "AB"] and [m = 1] the last
    two characters of [a] equal the first two of [b], so the largest
    admissible overlap is [2]; the matcher returns [0], because its early
    exit compares the last character of [a] with the first of [b]. *)
Lemma longest_overlap_not_largest :
  longest_overlap (lit "AB") (lit "AB") 1 = 0 ∧
  valid_overlap (lit "AB") (lit "AB") 1 2 ∧
  ¬ largest_overlap (lit "AB") (lit "AB") 1 (longest_overlap (lit "AB") (lit "AB") 1).
Proof.
  assert (Hv : valid_overlap (lit "AB") (lit "AB") 1 2).
  { unfold valid_overlap, overlap_at, len. simpl. repeat split; try lia; done. }
  assert (H0 : longest_overlap (lit "AB") (lit "AB") 1 = 0) by (vm_compute; reflexivity).
  split; [done|]. split; [done|]. rewrite H0.
  intros [[_ Hmax]|[_ Hnone]].
  - specialize (Hmax 2 Hv). lia.
  - exact (Hnone 2 Hv).
Qed.

(** C1, as amended. For [m >= 1]: when the length-[m] suffix of [a] differs
    from the length-[m] prefix of [b] the matcher returns [0]; otherwise it
    returns the largest [L] with [m <= L <= min(len a, len b)] whose suffix
    of [a] equals the prefix of [b], and [0] when there is no such [L]. *)
Theorem longest_overlap_guarded (a b : str) (m : Z) :
  1 ≤ m →
  (¬ guard_passes a b m → longest_overlap a b m = 0) ∧
  (guard_passes a b m → largest_overlap a b m (longest_overlap a b m)).
Proof.
  intros Hm. rewrite guard_passes_slices by done. unfold longest_overlap.
  split; intros Hg.
  - by rewrite decide_True.
  - rewrite decide_False by (intros ?; done).
    destruct (first_match_range a b (m - 1) _ (Z.min (len a) (len b)) eq_refl)
      as [[H0 Hall]|(Hr & Hmatch & Hall)].
    + right. split; [done|]. intros L (HL1 & HL2 & Hov).
      apply (Hall L); [lia|]. by apply overlap_at_slices; [lia|lia|].
    + left. split.
      * split; [lia|]. split; [lia|]. by apply overlap_at_slices; [lia|lia|].
      * intros L (HL1 & HL2 & Hov).
        destruct (Z.le_gt_cases L (first_match a b (range_desc (Z.min (len a) (len b)) (m - 1))))
          as [|Hgt]; [done|].
        exfalso. apply (Hall L); [lia|]. by apply overlap_at_slices; [lia|lia|].
Qed.

(** The amended C1 at ["AB"], ["AB"], [m = 1], where the early exit is taken. *)
Lemma longest_overlap_guarded_witness :
  ¬ guard_passes (lit "AB") (lit "AB") 1 ∧ longest_overlap (lit "AB") (lit "AB") 1 = 0.
Proof.
  assert (Hn : ¬ guard_passes (lit "AB") (lit "AB") 1) by (vm_compute; discriminate).
  split; [exact Hn|].
  exact (proj1 (longest_overlap_guarded (lit "AB") (lit "AB") 1 ltac:(lia)) Hn).
Defined.
(** ** The index and its updates *)

Lemma indexed_empty p i : ¬ indexed ∅ p i.
Proof. intros (s & Hs & _). by rewrite lookup_empty in Hs. Qed.

Lemma indexed_index_add idx p i q j :
  indexed (index_add idx p i) q j ↔ indexed idx q j ∨ (q = p ∧ j = i).
Proof.
  unfold indexed, index_add. destruct (decide (p = q)) as [->|Hne].
  - rewrite lookup_insert_eq. split.
    + intros (s & [= <-] & Hin). apply elem_of_union in Hin as [Hin|Hin].
      * apply elem_of_singleton in Hin. by right.
      * left. destruct (idx !! q) as [s|] eqn:E; simpl in Hin; [eauto|set_solver].
    + intros [(s & Hs & Hin)|[_ ->]]; eexists; (split; [done|]).
      * rewrite Hs. simpl. set_solver.
      * set_solver.
  - rewrite lookup_insert_ne by done. split; [eauto|].
    intros [?|[-> _]]; done.
Qed.

Lemma index_discard_spec idx p i :
  ∃ idx', index_discard idx p i = Returned idx' ∧
    ∀ q j, indexed idx' q j ↔ indexed idx q j ∧ ¬ (q = p ∧ j = i).
Proof.
  unfold index_discard, indexed.
  destruct (idx !! p) as [s|] eqn:Hp.
  - destruct (decide (s ≠ ∅ ∧ i ∈ s)) as [[Hne Hin]|Hno].
    + unfold set_remove. rewrite decide_True by done. simpl.
      eexists. split; [done|]. intros q j.
      destruct (decide (s ∖ {[i]} = ∅)) as [He|He].
      * destruct (decide (q = p)) as [->|Hq].
        -- rewrite lookup_delete_eq, Hp. split; [by intros (? & ? & ?)|].
           intros [(s' & [= <-] & Hj) Hn]. exfalso. apply Hn. split; [done|].
           set_solver.
        -- rewrite lookup_delete_ne by done. naive_solver.
      * destruct (decide (q = p)) as [->|Hq].
        -- rewrite lookup_insert_eq, Hp. split.
           ++ intros (s' & [= <-] & Hj). split; [exists s; set_solver|set_solver].
           ++ intros [(s' & [= <-] & Hj) Hn]. eexists. split; [done|].
              apply elem_of_difference. split; [done|]. set_solver.
        -- rewrite lookup_insert_ne by done. naive_solver.
    + eexists. split; [done|]. intros q j. split; [|naive_solver].
      intros (s' & Hs' & Hj). split; [eauto|]. intros [-> ->].
      rewrite Hp in Hs'. injection Hs' as <-. apply Hno. split; [set_solver|done].
  - eexists. split; [done|]. intros q j. split; [|naive_solver].
    intros (s' & Hs' & Hj). split; [eauto|]. intros [-> ->]. congruence.
Qed.

Lemma update_prefix_index_spec idx i old new k :
  ∃ idx', update_prefix_index idx i old new k = Returned idx' ∧
    ∀ q j, indexed idx' q j ↔
      (indexed idx q j ∧ ¬ (j = i ∧ key old k = Some q)) ∨ (j = i ∧ key new k = Some q).
Proof.
  unfold update_prefix_index, key.
  assert (∃ idx1,
    match usable old k with
    | Some old' => index_discard idx (slice_to old' k) i
    | None => Returned idx
    end = Returned idx1 ∧
    ∀ q j, indexed idx1 q j ↔
      indexed idx q j ∧ ¬ (j = i ∧ (λ r', slice_to r' k) <$> usable old k = Some q))
    as (idx1 & -> & H1).
  { destruct (usable old k) as [old'|]; simpl.
    - destruct (index_discard_spec idx (slice_to old' k) i) as (idx1 & -> & H).
      exists idx1. split; [done|]. intros q j. rewrite H. naive_solver.
    - exists idx. split; [done|]. naive_solver. }
  simpl. destruct (usable new k) as [new'|]; simpl; eexists; (split; [done|]); intros q j.
  - rewrite indexed_index_add, H1. naive_solver.
  - rewrite H1. naive_solver.
Qed.

Lemma index_ok_update k xs idx i old new idx' :
  index_ok k xs idx → xs !! i = Some old →
  update_prefix_index idx i old new k = Returned idx' →
  index_ok k (<[i := new]> xs) idx'.
Proof.
  intros Hok Hi Hup p j.
  destruct (update_prefix_index_spec idx i old new k) as (idx2 & Heq & H).
  rewrite Hup in Heq. injection Heq as <-. rewrite H, (Hok p j).
  destruct (decide (j = i)) as [->|Hne].
  - rewrite list_lookup_insert_eq by (by eapply lookup_lt_Some). naive_solver.
  - rewrite list_lookup_insert_ne by done. naive_solver.
Qed.

Lemma build_loop_spec k reads idx i q j :
  indexed (build_loop idx i reads k) q j ↔
    indexed idx q j ∨ ∃ r, reads !! (j - i)%nat = Some r ∧ (i ≤ j)%nat ∧ key r k = Some q.
Proof.
  revert idx i. induction reads as [|r reads IH]; intros idx i; simpl.
  - naive_solver.
  - rewrite IH. unfold key at 2. destruct (usable r k) as [r'|] eqn:Hr.
    + rewrite indexed_index_add. split.
      * intros [[?|[-> ->]]|(r0 & Hr0 & Hle & Hk)]; [by left| |].
        -- right. exists r. replace (i - i)%nat with 0%nat by lia.
           split; [done|]. split; [lia|]. unfold key. by rewrite Hr.
        -- right. exists r0. replace (j - i)%nat with (S (j - S i)) by lia.
           split; [done|]. split; [lia|done].
      * intros [?|(r0 & Hr0 & Hle & Hk)]; [by left; left|].
        destruct (decide (j = i)) as [->|Hne].
        -- replace (i - i)%nat with 0%nat in Hr0 by lia. simpl in Hr0.
           injection Hr0 as <-. unfold key in Hk. rewrite Hr in Hk. simpl in Hk.
           injection Hk as <-. left. by right.
        -- right. exists r0. replace (j - i)%nat with (S (j - S i)) in Hr0 by lia.
           split; [done|]. split; [lia|done].
    + split.
      * intros [?|(r0 & Hr0 & Hle & Hk)]; [by left|].
        right. exists r0. replace (j - i)%nat with (S (j - S i)) by lia.
        split; [done|]. split; [lia|done].
      * intros [?|(r0 & Hr0 & Hle & Hk)]; [by left|].
        destruct (decide (j = i)) as [->|Hne].
        -- replace (i - i)%nat with 0%nat in Hr0 by lia. simpl in Hr0.
           injection Hr0 as <-. unfold key in Hk. by rewrite Hr in Hk.
        -- right. exists r0. replace (j - i)%nat with (S (j - S i)) in Hr0 by lia.
           split; [done|]. split; [lia|done].
Qed.

Lemma build_prefix_index_ok k xs : index_ok k xs (build_prefix_index xs k).
Proof.
  intros p i. unfold build_prefix_index. rewrite build_loop_spec.
  replace (i - 0)%nat with i by lia. split.
  - intros [H|(r & ? & _ & ?)]; [by apply indexed_empty in H|eauto].
  - intros (r & ? & ?). right. exists r. split; [done|]. split; [lia|done].
Qed.

(** The index built from a list, and every update that follows a write to
    the list, yield the invariant of section 3 when [k >= 1]. *)
Lemma index_ok_invariant (k : Z) (xs : pylist) (idx : index) :
  1 ≤ k → index_ok k xs idx → index_invariant k xs idx.
Proof.
  intros Hk Hok.
  assert (Hkey : ∀ f, k ≤ len f → key (Some f) k = Some (take (Z.to_nat k) f)).
  { intros f Hf. unfold key, usable, len in *. destruct f as [|c f]; simpl in *; [lia|].
    destruct (Z.ltb_spec (Z.of_nat (S (length f))) k) as [?|_]; [lia|].
    simpl. by rewrite slice_to_nonneg by lia. }
  assert (Hshort : ∀ f p, key (Some f) k = Some p → k ≤ len f).
  { intros f p. unfold key, usable. destruct f as [|c f]; [done|].
    destruct (Z.ltb_spec (len (c :: f)) k); [done|]. intros _. lia. }
  split.
  - intros i f Hi Hf. split.
    + apply Hok. exists (Some f). split; [done|]. by apply Hkey.
    + intros p (r & Hr & Hp)%Hok. rewrite Hi in Hr. injection Hr as <-.
      rewrite Hkey in Hp by done. by injection Hp.
  - intros p i f (r & Hr & Hp)%Hok Hi. rewrite Hi in Hr. injection Hr as <-.
    apply Hshort in Hp. lia.
  - intros p i (r & Hr & Hp)%Hok Hi. rewrite Hi in Hr. injection Hr as <-. done.
  - intros p i (r & Hr & Hp)%Hok. by eapply lookup_lt_Some.
Qed.

Lemma usable_Some (r : option str) (k : Z) (r' : str) :
  usable r k = Some r' ↔ r = Some r' ∧ r' ≠ [] ∧ k ≤ len r'.
Proof.
  unfold usable. destruct r as [[|c f]|].
  - naive_solver.
  - destruct (Z.ltb_spec (len (c :: f)) k); split.
    + done.
    + intros ([= <-] & _ & ?). lia.
    + intros [= <-]. split; [done|]. split; [done|lia].
    + by intros ([= <-] & _ & ?).
  - naive_solver.
Qed.

Lemma elem_of_bucket (idx : index) (p : str) (j : nat) :
  j ∈ default ∅ (idx !! p) ↔ indexed idx p j.
Proof.
  unfold indexed. destruct (idx !! p) as [s|]; simpl.
  - naive_solver.
  - split; [set_solver|]. by intros (? & ? & _).
Qed.

(** ** The store *)

Lemma list_getitem_eq (h : store) (l : loc) (xs : pylist) (j : nat) (v : option str) :
  h !! l = Some xs → xs !! j = Some v → list_getitem h l j = Returned v.
Proof. intros Hl Hj. unfold list_getitem, list_load. rewrite Hl. simpl. by rewrite Hj. Qed.

Lemma list_setitem_eq (h : store) (l : loc) (xs : pylist) (j : nat) (v : option str) :
  h !! l = Some xs → (j < length xs)%nat →
  list_setitem h l j v = Returned (<[l := <[j := v]> xs]> h).
Proof.
  intros Hl Hj. unfold list_setitem, list_load. rewrite Hl. simpl.
  by rewrite decide_True.
Qed.

(** ** One iteration of the engine *)

Arguments list_load : simpl never.
Arguments list_getitem : simpl never.
Arguments list_setitem : simpl never.
Arguments update_prefix_index : simpl never.
Arguments longest_overlap : simpl never.
Arguments slice_from : simpl never.
Arguments slice_to : simpl never.

Section EngineFacts.

Variable order : enumeration.
Hypothesis order_perm : ∀ st i s, order st i s ≡ₚ elements s.

Variables (k min_olap : Z) (reads : loc).

Lemma elem_of_order (st : state) (i : nat) (s : gset nat) (j : nat) :
  j ∈ order st i s ↔ j ∈ s.
Proof. by rewrite (order_perm st i s), elem_of_elements. Qed.

Lemma best_candidate_spec (h : store) (xs : pylist) (i : nat) (r : str)
    (cands : list nat) (bj0 : option nat) (bo0 : Z) :
  h !! reads = Some xs →
  (∀ j, j ∈ cands → (j < length xs)%nat) →
  cand_inv min_olap xs i r bj0 bo0 →
  ∃ bj bo,
    best_candidate h reads i r min_olap cands bj0 bo0 = Returned (bj, bo) ∧
    cand_inv min_olap xs i r bj bo ∧ bo0 ≤ bo ∧
    (bj = bj0 ∨ ∃ j, bj = Some j ∧ j ∈ cands) ∧
    ∀ j rj, j ∈ cands → j ≠ i → xs !! j = Some (Some rj) → rj ≠ [] →
      longest_overlap r rj min_olap ≤ bo.
Proof.
  intros Hh. revert bj0 bo0.
  induction cands as [|j cands IH]; intros bj0 bo0 Hrange Hinv; simpl.
  - exists bj0, bo0. split; [done|]. split; [done|]. split; [lia|].
    split; [by left|]. intros j rj Hj. by apply elem_of_nil in Hj.
  - assert (Hrange' : ∀ j', j' ∈ cands → (j' < length xs)%nat).
    { intros j' Hj'. apply Hrange. by right. }
    assert (Hkeep : ∀ bo1 bj1, cand_inv min_olap xs i r bj1 bo1 → bo0 ≤ bo1 →
      (bj1 = bj0 ∨ bj1 = Some j) →
      (j ≠ i → ∀ rj, xs !! j = Some (Some rj) → rj ≠ [] →
         longest_overlap r rj min_olap ≤ bo1) →
      ∃ bj bo,
        best_candidate h reads i r min_olap cands bj1 bo1 = Returned (bj, bo) ∧
        cand_inv min_olap xs i r bj bo ∧ bo0 ≤ bo ∧
        (bj = bj0 ∨ ∃ j', bj = Some j' ∧ j' ∈ j :: cands) ∧
        ∀ j' rj, j' ∈ j :: cands → j' ≠ i → xs !! j' = Some (Some rj) → rj ≠ [] →
          longest_overlap r rj min_olap ≤ bo).
    { intros bo1 bj1 Hinv1 Hle Hbj Hmax.
      destruct (IH bj1 bo1 Hrange' Hinv1) as (bj & bo & Heq & Hinv' & Hle' & Hsel & Hall).
      exists bj, bo. split; [done|]. split; [done|]. split; [lia|]. split.
      - destruct Hsel as [->|(j' & -> & Hj')].
        + destruct Hbj as [-> | ->]; [by left|]. right. exists j. split; [done|by left].
        + right. exists j'. split; [done|by right].
      - intros j' rj Hj' Hne Hx Hrj. apply elem_of_cons in Hj' as [->|Hj'].
        + specialize (Hmax Hne rj Hx Hrj). lia.
        + by apply (Hall j' rj). }
    destruct (decide (j = i)) as [->|Hne].
    { apply Hkeep; [done|lia|by left|done]. }
    destruct (lookup_lt_is_Some_2 xs j (Hrange j ltac:(by left))) as [rj Hrj].
    rewrite (list_getitem_eq h reads xs j rj Hh Hrj). simpl.
    destruct rj as [[|c rj]|].
    + apply Hkeep; [done|lia|by left|]. intros _ rj' Hx. congruence.
    + destruct (Z.ltb_spec bo0 (longest_overlap r (c :: rj) min_olap)) as [Hlt|Hge].
      * apply Hkeep; [|lia|by right|].
        -- simpl. split; [done|]. exists (c :: rj). split; [done|]. split; [done|].
           split; [done|]. destruct bj0; simpl in Hinv; [|lia].
           destruct Hinv as (_ & ? & _ & _ & -> & ?). lia.
        -- intros _ rj' Hx _. rewrite Hrj in Hx. injection Hx as <-. lia.
      * apply Hkeep; [done|lia|by left|].
        intros _ rj' Hx _. rewrite Hrj in Hx. injection Hx as <-. lia.
    + apply Hkeep; [done|lia|by left|]. intros _ rj' Hx. congruence.
Qed.

(** The body of the scan at position [i] returns; it either leaves the
    state alone, no partner of [i] overlapping it enough, or takes one
    merge step. *)
Lemma scan_fragment_spec (st : state) (xs : pylist) (i : nat) :
  good_state k reads st xs → (i < length xs)%nat →
  ∃ st' oev,
    scan_fragment order k min_olap reads st i = Returned (st', oev) ∧
    match oev with
    | None => st' = st ∧ no_partner k min_olap st xs i
    | Some ev =>
        ev_before ev = st ∧ ev_after ev = st' ∧ ev_i ev = i ∧
        merge_ok k min_olap reads ev xs
    end.
Proof.
  intros [Hh Hok] Hi. unfold scan_fragment.
  destruct (lookup_lt_is_Some_2 xs i Hi) as [r0 Hr0].
  rewrite (list_getitem_eq _ _ _ _ _ Hh Hr0). simpl.
  destruct (usable r0 k) as [r|] eqn:Hus.
  2: { exists st, None. split; [done|]. split; [done|]. intros r Hr Hne Hlen.
       rewrite Hr0 in Hr. injection Hr as ->.
       assert (usable (Some r) k = Some r) by (by apply usable_Some). congruence. }
  apply usable_Some in Hus as (-> & Hne & Hlen).
  set (suf := slice_from r (- k)).
  destruct (decide (default ∅ (st_idx st !! suf) = ∅)) as [Hemp|Hnemp].
  { exists st, None. split; [done|]. split; [done|].
    intros r' Hr' _ _ j rj (_ & Hidx & _).
    rewrite Hr0 in Hr'. injection Hr' as <-.
    apply elem_of_bucket in Hidx. fold suf in Hidx. rewrite Hemp in Hidx. set_solver. }
  destruct (best_candidate_spec (st_heap st) xs i r
              (order st i (default ∅ (st_idx st !! suf))) None 0 Hh)
    as (bj & bo & -> & Hinv & Hbo & Hsel & Hmax).
  { intros j Hj. apply elem_of_order, elem_of_bucket in Hj.
    apply Hok in Hj as (rj & Hrj & _). by eapply lookup_lt_Some. }
  { done. }
  simpl.
  assert (Hmax' : ∀ j rj, partner k st xs i r j rj → longest_overlap r rj min_olap ≤ bo).
  { intros j rj (Hji & Hidx & Hx & Hrj). apply (Hmax j rj); [|done..].
    by apply elem_of_order, elem_of_bucket. }
  destruct bj as [j|].
  2: { simpl in Hinv. subst bo. exists st, None. split; [done|]. split; [done|].
       intros r' Hr' _ _ j rj Hp. rewrite Hr0 in Hr'. injection Hr' as <-.
       left. by apply (Hmax' j rj). }
  destruct (Z.ltb_spec bo min_olap) as [Hlt|Hge].
  { exists st, None. split; [done|]. split; [done|].
    intros r' Hr' _ _ j' rj Hp. rewrite Hr0 in Hr'. injection Hr' as <-.
    right. specialize (Hmax' j' rj Hp). lia. }
  simpl in Hinv. destruct Hinv as (Hji & rj & Hrj & Hrjne & Hbo_eq & Hpos).
  rewrite (list_getitem_eq _ _ _ _ _ Hh Hrj). simpl.
  rewrite (list_setitem_eq _ _ _ _ _ Hh Hi). simpl.
  rewrite (list_setitem_eq (<[reads := _]> _) reads
             (<[i := Some (r ++ slice_from rj bo)]> xs) j None);
    [|apply lookup_insert_eq|rewrite length_insert; by eapply lookup_lt_Some].
  simpl. rewrite insert_insert_eq.
  destruct (update_prefix_index_spec (st_idx st) i (Some r)
              (Some (r ++ slice_from rj bo)) k) as (idx1 & Hup1 & _).
  rewrite Hup1. simpl.
  destruct (update_prefix_index_spec idx1 j (Some rj) None k) as (idx2 & Hup2 & _).
  rewrite Hup2. simpl.
  eexists _, (Some _). split; [done|]. simpl.
  split; [done|]. split; [done|]. split; [done|].
  assert (Hsel' : indexed (st_idx st) suf j).
  { destruct Hsel as [?|(j' & [= <-] & Hj')]; [done|].
    by apply elem_of_order, elem_of_bucket in Hj'. }
  constructor; simpl; try done.
  apply (index_ok_update k _ idx1 j (Some rj)); [|by rewrite list_lookup_insert_ne|done].
  by apply (index_ok_update k xs (st_idx st) i (Some r)).
Qed.

(** *** Consequences of a merge step *)

Lemma sum_list_with_insert {A : Type} (f : A → nat) (xs : list A) (i : nat) (x y : A) :
  xs !! i = Some x →
  (sum_list_with f (<[i := y]> xs) + f x = sum_list_with f xs + f y)%nat.
Proof.
  revert i. induction xs as [|z xs IH]; intros [|i] Hi; simpl in *; try done.
  - injection Hi as ->. lia.
  - specialize (IH i Hi). lia.
Qed.

Lemma active_pos (xs : pylist) (i : nat) (f : str) :
  xs !! i = Some (Some f) → (1 ≤ active xs)%nat.
Proof.
  revert i. unfold active. induction xs as [|z xs IH]; intros [|i] Hi; simpl in *; try done.
  - injection Hi as ->. lia.
  - specialize (IH i Hi). lia.
Qed.

Lemma merge_ok_overlap (ev : merge_event) (xs : pylist) :
  merge_ok k min_olap reads ev xs →
  1 ≤ ev_ol ev ∧ ev_ol ev ≤ len (ev_old_i ev) ∧ ev_ol ev ≤ len (ev_old_j ev) ∧
  overlap_at (ev_old_i ev) (ev_old_j ev) (ev_ol ev).
Proof.
  intros Hm. pose proof (mo_pos _ _ _ _ _ Hm) as Hpos.
  rewrite (mo_ol _ _ _ _ _ Hm) in *.
  destruct (longest_overlap_pos _ _ _ Hpos) as (_ & Hle & Hov).
  split; [lia|]. split; [lia|]. split; [lia|done].
Qed.

Lemma merge_ok_after (ev : merge_event) (xs : pylist) :
  merge_ok k min_olap reads ev xs →
  let xs' := <[ev_j ev := None]> (<[ev_i ev := Some (ev_merged ev)]> xs) in
  good_state k reads (ev_after ev) xs' ∧
  length xs' = length xs ∧
  (active xs' + 1 = active xs)%nat ∧
  (1 ≤ active xs')%nat ∧
  Z.of_nat (total_len xs') + ev_ol ev = Z.of_nat (total_len xs) ∧
  ∀ l, l ≠ reads → st_heap (ev_after ev) !! l = st_heap (ev_before ev) !! l.
Proof.
  intros Hm xs'.
  destruct (merge_ok_overlap ev xs Hm) as (Hol1 & Holi & Holj & _).
  destruct (mo_partner _ _ _ _ _ Hm) as (Hji & _ & Hj & _).
  pose proof (mo_i _ _ _ _ _ Hm) as Hi.
  assert (Hi' : <[ev_i ev := Some (ev_merged ev)]> xs !! ev_j ev = Some (Some (ev_old_j ev)))
    by (by rewrite list_lookup_insert_ne).
  split; [|split; [|split; [|split; [|split]]]].
  - split; [|exact (mo_after _ _ _ _ _ Hm)].
    rewrite (mo_heap _ _ _ _ _ Hm). apply lookup_insert_eq.
  - unfold xs'. by rewrite !length_insert.
  - unfold xs', active.
    pose proof (sum_list_with_insert (λ r : option str, if r is Some _ then 1%nat else 0%nat)
                  _ _ _ None Hi') as H1.
    pose proof (sum_list_with_insert (λ r : option str, if r is Some _ then 1%nat else 0%nat)
                  _ _ _ (Some (ev_merged ev)) Hi) as H2.
    simpl in *. lia.
  - apply (active_pos xs' (ev_i ev) (ev_merged ev)). unfold xs'.
    rewrite list_lookup_insert_ne by done.
    apply list_lookup_insert_eq. by eapply lookup_lt_Some.
  - unfold xs', total_len.
    pose proof (sum_list_with_insert (λ r : option str, length (default [] r))
                  _ _ _ None Hi') as H1.
    pose proof (sum_list_with_insert (λ r : option str, length (default [] r))
                  _ _ _ (Some (ev_merged ev)) Hi) as H2.
    simpl in *. rewrite (mo_merged _ _ _ _ _ Hm) in H1, H2 |- *.
    rewrite slice_from_nonneg in H1, H2 |- * by lia.
    rewrite length_app, length_drop in H2.
    unfold len in *. lia.
  - intros l Hl. rewrite (mo_heap _ _ _ _ _ Hm). by apply lookup_insert_ne.
Qed.

Lemma good_state_agree (st : state) (xs ys : pylist) :
  good_state k reads st xs → good_state k reads st ys → xs = ys.
Proof. intros [H1 _] [H2 _]. congruence. Qed.

Lemma chain_app (st1 st2 st3 : state) (evs1 evs2 : list merge_event) :
  chain k min_olap reads st1 evs1 st2 → chain k min_olap reads st2 evs2 st3 →
  chain k min_olap reads st1 (evs1 ++ evs2) st3.
Proof.
  induction 1 as [|st xs ev evs st' Hb Hm Hc IH]; intros H2; simpl; [done|].
  econstructor; eauto.
Qed.

(** A sequence of merge steps keeps the state good and the list as long
    as it was, retires one fragment per step and shortens the total length
    by the overlaps; it writes to no list but the working one. *)
Lemma chain_facts (st st' : state) (evs : list merge_event) (xs : pylist) :
  good_state k reads st xs → chain k min_olap reads st evs st' →
  ∃ xs', good_state k reads st' xs' ∧
    length xs' = length xs ∧
    (active xs' + length evs = active xs)%nat ∧
    (evs ≠ [] → (1 ≤ active xs')%nat) ∧
    Z.of_nat (total_len xs') + overlap_total evs = Z.of_nat (total_len xs) ∧
    (∀ l, l ≠ reads → st_heap st' !! l = st_heap st !! l).
Proof.
  intros Hg Hc. revert xs Hg.
  induction Hc as [|st xs0 ev evs st' Hb Hm Hc IH]; intros xs Hg.
  - exists xs. split; [done|]. split; [done|]. split; [simpl; lia|].
    split; [done|]. split; [simpl; lia|done].
  - subst st. pose proof (good_state_agree _ _ _ (mo_before _ _ _ _ _ Hm) Hg) as ->.
    destruct (merge_ok_after ev xs Hm) as (Hg1 & Hlen1 & Hact1 & Hpos1 & Htot1 & Hfr1).
    destruct (IH _ Hg1) as (xs' & Hg' & Hlen' & Hact' & Hpos' & Htot' & Hfr').
    exists xs'. split; [done|]. split; [congruence|]. split; [simpl; lia|].
    split; [|split].
    + intros _. destruct evs as [|ev' evs]; [|by apply Hpos'].
      simpl in Hact'. lia.
    + simpl. lia.
    + intros l Hl. by rewrite Hfr', Hfr1.
Qed.

(** The scan leaves the state alone at a position that holds no usable
    fragment or has no other [Active] fragment to merge with. *)
Lemma scan_fragment_none (st : state) (xs : pylist) (i : nat) :
  good_state k reads st xs → (i < length xs)%nat →
  (∀ r j rj, xs !! i = Some (Some r) → j ≠ i → xs !! j = Some (Some rj) → False) →
  scan_fragment order k min_olap reads st i = Returned (st, None).
Proof.
  intros Hg Hi Hno.
  destruct (scan_fragment_spec st xs i Hg Hi) as (st' & [ev|] & -> & H).
  - destruct H as (_ & _ & Hevi & Hm). exfalso.
    destruct (mo_partner _ _ _ _ _ Hm) as (Hji & _ & Hj & _).
    pose proof (mo_i _ _ _ _ _ Hm) as Hxi. rewrite Hevi in *.
    by apply (Hno _ _ _ Hxi Hji Hj).
  - by destruct H as [-> _].
Qed.

(** The scan merges at a position that has a partner with enough
    overlap. *)
Lemma scan_fragment_some (st : state) (xs : pylist) (i : nat) :
  good_state k reads st xs → (i < length xs)%nat →
  ¬ no_partner k min_olap st xs i →
  ∃ ev, scan_fragment order k min_olap reads st i = Returned (ev_after ev, Some ev) ∧
    ev_before ev = st ∧ ev_i ev = i ∧ merge_ok k min_olap reads ev xs.
Proof.
  intros Hg Hi Hno.
  destruct (scan_fragment_spec st xs i Hg Hi) as (st' & [ev|] & -> & H).
  - destruct H as (Hb & <- & Hevi & Hm). by exists ev.
  - by destruct H as [_ ?].
Qed.

Lemma pass_unfold (st : state) (xs : pylist) :
  good_state k reads st xs →
  pass order k min_olap reads st = scan_all order k min_olap reads st (seq 0 (length xs)).
Proof. intros [Hh _]. unfold pass, list_load. by rewrite Hh. Qed.

(** *** The loops *)

Lemma scan_all_spec (ps : list nat) (st : state) (xs : pylist) :
  good_state k reads st xs → (∀ i, i ∈ ps → (i < length xs)%nat) →
  ∃ st' evs,
    scan_all order k min_olap reads st ps = Returned (st', evs) ∧
    chain k min_olap reads st evs st' ∧
    (evs = [] → st' = st ∧ ∀ i, i ∈ ps → no_partner k min_olap st xs i).
Proof.
  revert st xs. induction ps as [|i ps IH]; intros st xs Hg Hr; simpl.
  - exists st, []. split; [done|]. split; [constructor|]. intros _. split; [done|].
    intros i Hi. by apply elem_of_nil in Hi.
  - destruct (scan_fragment_spec st xs i Hg (Hr i ltac:(by left)))
      as (st1 & oev & -> & Hoev). simpl.
    destruct oev as [ev|].
    + destruct Hoev as (Hb & Ha & Hi & Hm).
      destruct (merge_ok_after ev xs Hm) as (Hg1 & Hlen1 & _).
      rewrite Ha in Hg1.
      destruct (IH st1 _ Hg1) as (st2 & evs & -> & Hc & _).
      { intros j Hj. rewrite Hlen1. apply Hr. by right. }
      simpl. exists st2, (ev :: evs). split; [done|]. split; [|done].
      econstructor; [done|done|]. by rewrite Ha.
    + destruct Hoev as (-> & Hnp).
      destruct (IH st xs Hg) as (st2 & evs & -> & Hc & Hfix).
      { intros j Hj. apply Hr. by right. }
      simpl. exists st2, evs. split; [done|]. split; [done|].
      intros ->. destruct (Hfix eq_refl) as [-> Hall]. split; [done|].
      intros j [->|Hj]%elem_of_cons; [done|by apply Hall].
Qed.

Lemma pass_spec (st : state) (xs : pylist) :
  good_state k reads st xs →
  ∃ st' evs,
    pass order k min_olap reads st = Returned (st', evs) ∧
    chain k min_olap reads st evs st' ∧
    (evs = [] → st' = st ∧ ∀ i, (i < length xs)%nat → no_partner k min_olap st xs i).
Proof.
  intros Hg. unfold pass, list_load. rewrite (proj1 Hg). simpl.
  destruct (scan_all_spec (seq 0 (length xs)) st xs Hg) as (st' & evs & -> & Hc & Hfix).
  { intros i Hi. apply elem_of_seq in Hi. lia. }
  exists st', evs. split; [done|]. split; [done|].
  intros He. destruct (Hfix He) as [-> Hall]. split; [done|].
  intros i Hi. apply Hall, elem_of_seq. lia.
Qed.

(** The [while] loop returns as soon as its budget exceeds the number of
    [Active] fragments. *)
Lemma assemble_loop_spec (fuel : nat) (st : state) (xs : pylist) :
  good_state k reads st xs → (active xs < fuel)%nat →
  ∃ st' log,
    assemble_loop order k min_olap reads fuel st = Returned (st', log) ∧
    chain k min_olap reads st (concat log) st' ∧
    log_shape log ∧
    ∀ xs', good_state k reads st' xs' →
      ∀ i, (i < length xs')%nat → no_partner k min_olap st' xs' i.
Proof.
  revert st xs. induction fuel as [|fuel IH]; intros st xs Hg Hfuel; [lia|].
  simpl. destruct (pass_spec st xs Hg) as (st1 & evs & -> & Hc & Hfix). simpl.
  destruct evs as [|ev evs].
  - destruct (Hfix eq_refl) as [-> Hall].
    exists st, [[]]. split; [done|]. split; [done|]. split.
    + exists []. by split.
    + intros xs' Hg'. by rewrite (good_state_agree _ _ _ Hg' Hg).
  - destruct (chain_facts _ _ _ _ Hg Hc) as (xs1 & Hg1 & _ & Hact & _).
    destruct (IH st1 xs1 Hg1) as (st2 & log & -> & Hc2 & (prod & -> & Hprod) & Hfin).
    { simpl in Hact. lia. }
    simpl. eexists _, _. split; [done|]. split; [|split; [|done]].
    + change (concat ((ev :: evs) :: prod ++ [[]]))
        with ((ev :: evs) ++ concat (prod ++ [[]])).
      by eapply chain_app.
    + exists ((ev :: evs) :: prod). split; [done|]. by constructor.
Qed.

(** A larger budget does not change what the loop returns. *)
Lemma assemble_loop_more_fuel (fuel fuel' : nat) (st st' : state)
    (log : list (list merge_event)) :
  (fuel ≤ fuel')%nat →
  assemble_loop order k min_olap reads fuel st = Returned (st', log) →
  assemble_loop order k min_olap reads fuel' st = Returned (st', log).
Proof.
  revert fuel' st st' log. induction fuel as [|fuel IH]; intros fuel' st st' log Hle; [done|].
  destruct fuel' as [|fuel']; [lia|]. simpl.
  destruct (pass order k min_olap reads st) as [[st1 [|ev evs]]|e]; simpl; try done.
  destruct (assemble_loop order k min_olap reads fuel st1) as [[st2 log2]|e] eqn:E;
    simpl; [|done].
  intros [= <- <-]. by rewrite (IH fuel' st1 st2 log2 ltac:(lia) E).
Qed.

Lemma active_le_length (xs : pylist) : (active xs ≤ length xs)%nat.
Proof.
  unfold active. induction xs as [|[f|] xs IH]; simpl; lia.
Qed.

End EngineFacts.

(** ** The whole run *)

Section RunFacts.

Variable order : enumeration.
Hypothesis order_perm : ∀ st i s, order st i s ≡ₚ elements s.

Variables (k min_olap : Z).

Lemma greedy_assemble_indexed_spec (h : store) (reads_in : loc) (xs : pylist) :
  h !! reads_in = Some xs →
  ∃ r, greedy_assemble_indexed order h reads_in k min_olap = Returned r ∧
       run_ok h reads_in xs k min_olap r.
Proof.
  intros Hin. unfold greedy_assemble_indexed, list_copy, list_load.
  rewrite Hin. cbn [mbind result_bind]. rewrite lookup_insert_eq.
  cbn [mbind result_bind]. set (l := fresh (dom h)).
  assert (Hfresh : h !! l = None).
  { apply not_elem_of_dom. apply is_fresh. }
  set (st0 := State (<[l := xs]> h) (build_prefix_index xs k)).
  assert (Hg0 : good_state k l st0 xs).
  { split; [apply lookup_insert_eq|apply build_prefix_index_ok]. }
  destruct (assemble_loop_spec order order_perm k min_olap l (S (length xs)) st0 xs Hg0)
    as (st & log & -> & Hc & Hshape & Hfin).
  { pose proof (active_le_length xs). lia. }
  simpl.
  destruct (chain_facts k min_olap l _ _ _ _ Hg0 Hc) as (ys & Hg & _).
  rewrite (proj1 Hg). simpl.
  eexists. split; [done|]. constructor; simpl; try done.
  exists ys. split; [done|]. split; [done|]. by apply Hfin.
Qed.

End RunFacts.

(** ** Runs of merge steps, event by event *)

Lemma chain_events (k min_olap : Z) (reads : loc) (st st' : state)
    (evs : list merge_event) :
  chain k min_olap reads st evs st' →
  Forall (λ ev, ∃ ys, merge_ok k min_olap reads ev ys) evs.
Proof. induction 1; constructor; eauto. Qed.

Lemma merge_ok_correct (k min_olap : Z) (reads : loc) (ev : merge_event) (ys : pylist) :
  merge_ok k min_olap reads ev ys → merge_correct reads ev.
Proof.
  intros Hm.
  destruct (merge_ok_overlap k min_olap reads ev ys Hm) as (Hol1 & Holi & Holj & Hov).
  destruct (mo_partner _ _ _ _ _ Hm) as (Hji & _ & Hj & _).
  pose proof (mo_i _ _ _ _ _ Hm) as Hi.
  destruct (merge_ok_after k min_olap reads ev ys Hm) as ([Hh' _] & _).
  constructor.
  - done.
  - exists ys. split; [apply (mo_before _ _ _ _ _ Hm)|done].
  - eexists. split; [exact Hh'|]. split.
    + rewrite list_lookup_insert_ne by done.
      apply list_lookup_insert_eq. by eapply lookup_lt_Some.
    + apply list_lookup_insert_eq. rewrite length_insert. by eapply lookup_lt_Some.
  - done.
  - rewrite (mo_merged _ _ _ _ _ Hm). by rewrite take_app_length.
  - rewrite (mo_merged _ _ _ _ _ Hm), slice_from_nonneg by lia.
    rewrite length_app, length_drop.
    replace (length (ev_old_i ev) + (length (ev_old_j ev) - Z.to_nat (ev_ol ev))
             - (length (ev_old_j ev) - Z.to_nat (ev_ol ev)))%nat
      with (length (ev_old_i ev)) by lia.
    by rewrite drop_app_length.
Qed.

Lemma merge_ok_retires (k min_olap : Z) (reads : loc) (ev : merge_event) (ys : pylist) :
  merge_ok k min_olap reads ev ys → retires_one reads ev.
Proof.
  intros Hm.
  destruct (merge_ok_after k min_olap reads ev ys Hm) as ([Hh' _] & _ & Hact & _).
  exists ys. eexists. split; [apply (mo_before _ _ _ _ _ Hm)|]. split; [exact Hh'|done].
Qed.

Lemma overlap_total_ge (k min_olap : Z) (reads : loc) (evs : list merge_event) :
  Forall (λ ev, ∃ ys, merge_ok k min_olap reads ev ys) evs →
  Z.of_nat (length evs) ≤ overlap_total evs.
Proof.
  induction 1 as [|ev evs [ys Hm] _ IH]; simpl; [lia|].
  pose proof (mo_pos _ _ _ _ _ Hm). lia.
Qed.

Lemma chain_states (k min_olap : Z) (reads : loc) (st st' : state)
    (evs : list merge_event) (xs : pylist) :
  good_state k reads st xs → chain k min_olap reads st evs st' →
  Forall (λ ev, ∃ ys, good_state k reads (ev_after ev) ys) evs.
Proof.
  intros Hg Hc. revert xs Hg.
  induction Hc as [|st xs0 ev evs st' Hb Hm Hc IH]; intros xs Hg; constructor.
  - eexists. apply (merge_ok_after k min_olap reads ev xs0 Hm).
  - eapply IH. apply (merge_ok_after k min_olap reads ev xs0 Hm).
Qed.

Lemma log_shape_length (log : list (list merge_event)) :
  log_shape log →
  (length log ≤ length (concat log) + 1)%nat ∧ last log = Some [].
Proof.
  intros (prod & -> & Hprod). split.
  - rewrite length_app, concat_app, length_app. simpl.
    assert (length prod ≤ length (concat prod))%nat; [|lia].
    induction Hprod as [|evs prod Hne _ IH]; simpl; [lia|].
    rewrite length_app. destruct evs; [done|]. simpl. lia.
  - apply last_snoc.
Qed.

(** ** The finalizer *)

Lemma length_concat_insert_by_len (x : str) (l : list str) :
  length (concat (insert_by_len x l)) = (length x + length (concat l))%nat.
Proof.
  induction l as [|y l IH]; simpl; [by rewrite length_app|].
  destruct (length y <=? length x)%nat; simpl; rewrite !length_app, ?IH; lia.
Qed.

Lemma length_concat_sort (l : list str) :
  length (concat (sort_by_len_desc l)) = length (concat l).
Proof.
  induction l as [|x l IH]; simpl; [done|].
  by rewrite length_concat_insert_by_len, length_app, IH.
Qed.

Lemma length_concat_contigs (ys : pylist) :
  length (concat (contigs_of ys)) = total_len ys.
Proof.
  unfold contigs_of, total_len, keep_truthy.
  induction ys as [|[[|c f]|] ys IH]; simpl; try done.
  rewrite length_app. f_equal. f_equal. exact IH.
Qed.

Lemma select_snd (g : option str → option str) (i : nat) (ys : pylist) :
  (select g i ys).*2 = omap g ys.
Proof.
  revert i. induction ys as [|r ys IH]; intros i; simpl; [done|].
  destruct (g r); simpl; by rewrite IH.
Qed.

Lemma elem_of_select (g : option str → option str) (i : nat) (ys : pylist)
    (j : nat) (f : str) :
  (j, f) ∈ select g i ys ↔
    (i ≤ j)%nat ∧ ∃ r, ys !! (j - i)%nat = Some r ∧ g r = Some f.
Proof.
  revert i. induction ys as [|r ys IH]; intros i; simpl.
  - split; [by intros ?%elem_of_nil|]. by intros (_ & ? & ? & _).
  - assert (Hrest : (j, f) ∈ select g (S i) ys ↔
      (i < j)%nat ∧ ∃ r', (r :: ys) !! (j - i)%nat = Some r' ∧ g r' = Some f).
    { rewrite IH. split.
      - intros (Hle & r' & Hr' & Hg). split; [lia|]. exists r'.
        replace (j - i)%nat with (S (j - S i)) by lia. done.
      - intros (Hlt & r' & Hr' & Hg). split; [lia|]. exists r'.
        replace (j - i)%nat with (S (j - S i)) in Hr' by lia. done. }
    assert (Hhead : ∀ f', g r = Some f' →
      ((j, f) = (i, f') ↔
        j = i ∧ ∃ r', (r :: ys) !! (j - i)%nat = Some r' ∧ g r' = Some f)).
    { intros f' Hf'. split.
      - intros [= -> ->]. split; [done|]. exists r.
        replace (i - i)%nat with 0%nat by lia. done.
      - intros (-> & r' & Hr' & Hg). replace (i - i)%nat with 0%nat in Hr' by lia.
        simpl in Hr'. injection Hr' as <-. congruence. }
    destruct (g r) as [f'|] eqn:Hgr.
    + rewrite elem_of_cons, Hrest, (Hhead f' eq_refl).
      split.
      * intros [(-> & H)|(Hlt & H)]; (split; [lia|done]).
      * intros (Hle & H). destruct (decide (j = i)) as [->|]; [by left|].
        right. split; [lia|done].
    + rewrite Hrest. split.
      * intros (Hlt & H). split; [lia|done].
      * intros (Hle & r' & Hr' & Hg). split; [|by exists r'].
        destruct (decide (j = i)) as [->|]; [|lia].
        replace (i - i)%nat with 0%nat in Hr' by lia. simpl in Hr'.
        injection Hr' as <-. congruence.
Qed.

Lemma select_ascending (g : option str → option str) (i : nat) (ys : pylist) :
  StronglySorted (λ x y : nat * str, (x.1 < y.1)%nat) (select g i ys).
Proof.
  revert i. induction ys as [|r ys IH]; intros i; simpl; [constructor|].
  destruct (g r) as [f|]; [|apply IH].
  constructor; [apply IH|].
  apply Forall_forall. intros [j f'] Hj. apply elem_of_select in Hj. simpl. lia.
Qed.

Lemma insert_pair_snd (x : nat * str) (l : list (nat * str)) :
  (insert_pair x l).*2 = insert_by_len x.2 l.*2.
Proof.
  induction l as [|y l IH]; [done|].
  rewrite fmap_cons. cbn [insert_pair insert_by_len].
  destruct (length y.2 <=? length x.2)%nat; [done|]. by rewrite fmap_cons, IH.
Qed.

Lemma sort_pairs_snd (l : list (nat * str)) :
  (sort_pairs l).*2 = sort_by_len_desc l.*2.
Proof.
  induction l as [|x l IH]; [done|].
  rewrite fmap_cons. cbn [sort_pairs sort_by_len_desc].
  by rewrite insert_pair_snd, IH.
Qed.

Lemma insert_pair_perm (x : nat * str) (l : list (nat * str)) :
  insert_pair x l ≡ₚ x :: l.
Proof.
  induction l as [|y l IH]; simpl; [done|].
  destruct (length y.2 <=? length x.2)%nat; [done|].
  rewrite IH. apply Permutation_swap.
Qed.

Lemma sort_pairs_perm (l : list (nat * str)) : sort_pairs l ≡ₚ l.
Proof.
  induction l as [|x l IH]; simpl; [done|]. by rewrite insert_pair_perm, IH.
Qed.

(** Inserting a fragment whose identifier is smaller than all those present
    keeps the list in the order of the finalizer: the sort is stable. *)
Lemma insert_pair_sorted (x : nat * str) (l : list (nat * str)) :
  StronglySorted contig_before l → Forall (λ y, (x.1 < y.1)%nat) l →
  StronglySorted contig_before (insert_pair x l).
Proof.
  induction 1 as [|y l Hl IH Hy]; intros Hx; simpl.
  - repeat constructor.
  - apply Forall_cons in Hx as [Hxy Hx].
    destruct (Nat.leb_spec (length y.2) (length x.2)) as [Hle|Hgt].
    + constructor; [by constructor|]. constructor.
      * unfold contig_before. lia.
      * rewrite Forall_forall in Hy, Hx |- *. intros z Hz.
        specialize (Hy z Hz). specialize (Hx z Hz). unfold contig_before in *. lia.
    + constructor; [by apply IH|].
      rewrite (insert_pair_perm x l). constructor; [|done].
      unfold contig_before. lia.
Qed.

Lemma sort_pairs_sorted (l : list (nat * str)) :
  StronglySorted (λ x y : nat * str, (x.1 < y.1)%nat) l →
  StronglySorted contig_before (sort_pairs l).
Proof.
  induction 1 as [|x l Hl IH Hx]; simpl; [constructor|].
  apply insert_pair_sorted; [done|]. by rewrite sort_pairs_perm.
Qed.

Lemma concat_keep_empty (ys : pylist) : concat (omap keep_empty ys) = [].
Proof. induction ys as [|[[|c r]|] ys IH]; simpl; done. Qed.

Lemma ascending_empty_sorted (l : list (nat * str)) :
  StronglySorted (λ x y : nat * str, (x.1 < y.1)%nat) l →
  Forall (λ x : nat * str, x.2 = []) l →
  StronglySorted contig_before l.
Proof.
  induction 1 as [|x l Hl IH Hx]; intros Hall; [constructor|].
  apply Forall_cons in Hall as [Hx0 Hall].
  constructor; [by apply IH|].
  rewrite Forall_forall in Hx, Hall |- *. intros y Hy. right.
  rewrite Hx0, (Hall y Hy). split; [done|by apply Hx].
Qed.

(** The finalizer: the string it builds is the concatenation of the
    [Active] fragments taken longest first, the smaller identifier first
    among fragments of one length. *)
Lemma finalizer_spec (ys : pylist) :
  ∃ contigs : list (nat * str),
    (∀ i f, (i, f) ∈ contigs ↔ ys !! i = Some (Some f)) ∧
    StronglySorted contig_before contigs ∧
    concat (sort_by_len_desc (contigs_of ys)) = concat contigs.*2.
Proof.
  exists (sort_pairs (select keep_truthy 0 ys) ++ select keep_empty 0 ys).
  assert (Hempty : ∀ i f, (i, f) ∈ select keep_empty 0 ys ↔
    ys !! i = Some (Some f) ∧ f = []).
  { intros i f. rewrite elem_of_select. replace (i - 0)%nat with i by lia. split.
    - intros (_ & r & Hr & Hk). destruct r as [[|c r]|]; simpl in Hk; try done.
      by injection Hk as <-.
    - intros [Hi ->]. split; [lia|]. by exists (Some []). }
  assert (Htruthy : ∀ i f, (i, f) ∈ sort_pairs (select keep_truthy 0 ys) ↔
    ys !! i = Some (Some f) ∧ f ≠ []).
  { intros i f. rewrite sort_pairs_perm, elem_of_select.
    replace (i - 0)%nat with i by lia. split.
    - intros (_ & r & Hr & Hk). destruct r as [[|c r]|]; simpl in Hk; try done.
      by injection Hk as <-.
    - intros [Hi Hf]. split; [lia|]. exists (Some f). split; [done|].
      by destruct f. }
  split; [|split].
  - intros i f. rewrite elem_of_app, Htruthy, Hempty.
    destruct (decide (f = [])); naive_solver.
  - apply StronglySorted_app_2.
    + intros [i f] [j f'] [_ Hf]%Htruthy [_ ->]%Hempty. left. simpl.
      destruct f; [done|simpl; lia].
    + apply sort_pairs_sorted, select_ascending.
    + apply ascending_empty_sorted; [apply select_ascending|].
      apply Forall_forall. intros [i f] [_ ->]%Hempty. done.
  - rewrite fmap_app, concat_app, sort_pairs_snd, select_snd.
    by rewrite select_snd, concat_keep_empty, app_nil_r.
Qed.

(** ** The claims about the engine *)

Section Claims.

Variable order : enumeration.
Hypothesis order_perm : ∀ st i s, order st i s ≡ₚ elements s.

(** C2. For [k >= 1], the engine returns, and in its first state (after
    the index is built) and in the state after each merge-and-rebind step
    the Prefix Index satisfies the invariant of section 3: an [Active]
    fragment of length at least [k] is in exactly the set keyed by its
    first [k] characters, no fragment shorter than [k] is in any set, and
    no [Retired] fragment is in any set. *)
Theorem prefix_index_invariant (h : store) (reads_in : loc) (xs : pylist)
    (k min_olap : Z) :
  1 ≤ k → h !! reads_in = Some xs →
  ∃ r, greedy_assemble_indexed order h reads_in k min_olap = Returned r ∧
    ∀ st, st = run_init r ∨ (∃ ev, ev ∈ concat (run_passes r) ∧ st = ev_after ev) →
      ∃ ys, st_heap st !! run_reads r = Some ys ∧ index_invariant k ys (st_idx st).
Proof.
  intros Hk Hin.
  destruct (greedy_assemble_indexed_spec order order_perm k min_olap h reads_in xs Hin)
    as (r & Hr & Hok).
  exists r. split; [done|]. intros st Hst.
  assert (∃ ys, good_state k (run_reads r) st ys) as (ys & Hh & Hidx).
  { destruct Hst as [->|(ev & Hev & ->)].
    - exists xs. apply (ro_init _ _ _ _ _ _ Hok).
    - pose proof (chain_states _ _ _ _ _ _ _ (ro_init _ _ _ _ _ _ Hok)
                    (ro_chain _ _ _ _ _ _ Hok)) as Hall.
      rewrite Forall_forall in Hall. by apply Hall. }
  exists ys. split; [done|]. by apply index_ok_invariant.
Qed.

(** C3, as amended. For every input list of [N] fragments and every [k]
    and [min_olap] the engine halts; it performs at most [max(N - 1, 0)]
    merges (the subtraction below is that of natural numbers), each of
    which reduces the number of [Active] fragments by exactly one, and at
    most [max(N, 1)] passes, the last of which makes no merge. *)
Theorem engine_halts (h : store) (reads_in : loc) (xs : pylist) (k min_olap : Z) :
  h !! reads_in = Some xs →
  ∃ r, greedy_assemble_indexed order h reads_in k min_olap = Returned r ∧
    (length (concat (run_passes r)) ≤ length xs - 1)%nat ∧
    Forall (retires_one (run_reads r)) (concat (run_passes r)) ∧
    (length (run_passes r) ≤ Nat.max (length xs) 1)%nat ∧
    last (run_passes r) = Some [].
Proof.
  intros Hin.
  destruct (greedy_assemble_indexed_spec order order_perm k min_olap h reads_in xs Hin)
    as (r & Hr & Hok).
  exists r. split; [done|].
  pose proof (ro_chain _ _ _ _ _ _ Hok) as Hc.
  destruct (chain_facts _ _ _ _ _ _ _ (ro_init _ _ _ _ _ _ Hok) Hc)
    as (ys & _ & _ & Hact & Hpos & _).
  destruct (log_shape_length _ (ro_shape _ _ _ _ _ _ Hok)) as [Hlen Hlast].
  pose proof (active_le_length xs) as Hle.
  assert (Hmerges : (length (concat (run_passes r)) ≤ length xs - 1)%nat).
  { destruct (concat (run_passes r)) as [|ev evs] eqn:E; simpl; [lia|].
    specialize (Hpos ltac:(done)). simpl in Hact. lia. }
  split; [done|]. split; [|split; [|done]].
  - eapply Forall_impl; [exact (chain_events _ _ _ _ _ _ Hc)|].
    intros ev [zs Hm]. by eapply merge_ok_retires.
  - destruct (concat (run_passes r)) as [|ev evs] eqn:E; simpl in *; lia.
Qed.

(** C4. The engine returns, and every merge of the run, in which fragment
    [i] absorbs fragment [j] on an overlap of [L] characters, produces a
    sequence whose first [len(i)] characters are the sequence [i] had
    before and whose last [len(j) - L] characters are the sequence of [j]
    from position [L] on. *)
Theorem merges_are_correct (h : store) (reads_in : loc) (xs : pylist) (k min_olap : Z) :
  h !! reads_in = Some xs →
  ∃ r, greedy_assemble_indexed order h reads_in k min_olap = Returned r ∧
    Forall (merge_correct (run_reads r)) (concat (run_passes r)).
Proof.
  intros Hin.
  destruct (greedy_assemble_indexed_spec order order_perm k min_olap h reads_in xs Hin)
    as (r & Hr & Hok).
  exists r. split; [done|].
  eapply Forall_impl; [exact (chain_events _ _ _ _ _ _ (ro_chain _ _ _ _ _ _ Hok))|].
  intros ev [zs Hm]. by eapply merge_ok_correct.
Qed.

(** C5. For every [k], hence every [k >= 1], the engine returns a string
    no longer than the sum of the lengths of the input fragments, and as
    long only when the run made no merge. *)
Theorem output_length_bound (h : store) (reads_in : loc) (xs : pylist) (k min_olap : Z) :
  h !! reads_in = Some xs →
  ∃ r, greedy_assemble_indexed order h reads_in k min_olap = Returned r ∧
    (length (run_out r) ≤ total_len xs)%nat ∧
    (length (run_out r) = total_len xs → concat (run_passes r) = []).
Proof.
  intros Hin.
  destruct (greedy_assemble_indexed_spec order order_perm k min_olap h reads_in xs Hin)
    as (r & Hr & Hok).
  exists r. split; [done|].
  pose proof (ro_chain _ _ _ _ _ _ Hok) as Hc.
  destruct (chain_facts _ _ _ _ _ _ _ (ro_init _ _ _ _ _ _ Hok) Hc)
    as (ys & Hg & _ & _ & _ & Htot & _).
  destruct (ro_final _ _ _ _ _ _ Hok) as (ys' & Hg' & Hout & _).
  rewrite (good_state_agree _ _ _ _ _ Hg' Hg) in Hout.
  assert (Hlen : length (run_out r) = total_len ys).
  { by rewrite Hout, length_concat_sort, length_concat_contigs. }
  pose proof (overlap_total_ge _ _ _ _ (chain_events _ _ _ _ _ _ Hc)) as Hge.
  split; [lia|]. intros Heq. revert Htot Hge.
  destruct (concat (run_passes r)) as [|ev evs]; [done|].
  rewrite length_cons. lia.
Qed.

(** C10. The engine returns, and the list the caller passed holds the
    same elements, in the same order, as before the call: the working list
    of the engine is another object. *)
Theorem input_list_unchanged (h : store) (reads_in : loc) (xs : pylist) (k min_olap : Z) :
  h !! reads_in = Some xs →
  ∃ r, greedy_assemble_indexed order h reads_in k min_olap = Returned r ∧
    run_reads r ≠ reads_in ∧
    st_heap (run_final r) !! reads_in = Some xs.
Proof.
  intros Hin.
  destruct (greedy_assemble_indexed_spec order order_perm k min_olap h reads_in xs Hin)
    as (r & Hr & Hok).
  exists r. split; [done|].
  assert (Hne : reads_in ≠ run_reads r).
  { intros ->. rewrite (ro_fresh _ _ _ _ _ _ Hok) in Hin. done. }
  split; [done|].
  destruct (chain_facts _ _ _ _ _ _ _ (ro_init _ _ _ _ _ _ Hok) (ro_chain _ _ _ _ _ _ Hok))
    as (ys & _ & _ & _ & _ & _ & Hframe).
  rewrite (Hframe reads_in Hne), (ro_init_heap _ _ _ _ _ _ Hok).
  by rewrite lookup_insert_ne.
Qed.

End Claims.

(** ** The remaining claims *)

(** C3, counterexample. On the empty list of fragments ([N = 0]) the engine
    makes one pass, its loop being entered before any test of progress: more
    than [N] passes, and not at most [N - 1 = -1] merges. *)
Lemma empty_input_one_pass :
  (∃ r, greedy_assemble_indexed by_elements (store_of []) 1 1 1 = Returned r ∧
        run_passes r = [[]] ∧ run_out r = []) ∧
  ¬ halts_within_N by_elements (store_of []) 1 [] 1 1.
Proof.
  split.
  - eexists. split; [vm_compute; reflexivity|]. by split.
  - intros (r & Hr & Hmerges & Hpasses & _).
    vm_compute in Hr. injection Hr as <-. simpl in Hpasses. lia.
Qed.

(** C7, counterexample. Asked to remove the binding of fragment [0] under
    ["AAAA"] from the empty index, which has no such binding, the rebind
    returns, with the index as it was. *)
Lemma rebind_missing_returns :
  binding_missing ∅ 0 (Some (lit "AAAA")) 4 ∧
  update_prefix_index ∅ 0 (Some (lit "AAAA")) None 4 = Returned ∅ ∧
  ¬ ∃ e, update_prefix_index ∅ 0 (Some (lit "AAAA")) None 4 = Raised e.
Proof.
  split; [|split].
  - exists (lit "AAAA"). split; [by vm_compute|]. apply indexed_empty.
  - by vm_compute.
  - intros [e He]. vm_compute in He. discriminate.
Qed.

(** C7, as amended. A rebind asked to remove a binding that is not in the
    index completes without an error: the removal does nothing, and the
    binding of the new sequence, when there is one of length at least [k],
    is inserted into the index otherwise left as it was. *)
Theorem rebind_missing_is_noop (idx : index) (i : nat) (old new : option str) (k : Z) :
  binding_missing idx i old k →
  update_prefix_index idx i old new k =
    Returned (match usable new k with
              | Some new' => index_add idx (slice_to new' k) i
              | None => idx
              end).
Proof.
  intros (p & Hp & Hno). unfold key in Hp. unfold update_prefix_index.
  destruct (usable old k) as [old'|]; [|done]. simpl in Hp. injection Hp as <-.
  assert (index_discard idx (slice_to old' k) i = Returned idx) as ->.
  { unfold index_discard. destruct (idx !! slice_to old' k) as [s|] eqn:Hs; [|done].
    destruct (decide (s ≠ ∅ ∧ i ∈ s)) as [[_ Hin]|_]; [|done].
    exfalso. apply Hno. by exists s. }
  simpl. by destruct (usable new k).
Qed.

(** The amended C7 on the empty index, with a new sequence to bind. *)
Lemma rebind_missing_is_noop_witness :
  binding_missing ∅ 0 (Some (lit "AAAA")) 4 ∧
  update_prefix_index ∅ 0 (Some (lit "AAAA")) (Some (lit "AAAAC")) 4 =
    Returned (index_add ∅ (lit "AAAA") 0).
Proof.
  assert (Hm : binding_missing ∅ 0 (Some (lit "AAAA")) 4).
  { exists (lit "AAAA"). split; [reflexivity|]. apply indexed_empty. }
  split; [exact Hm|].
  exact (rebind_missing_is_noop ∅ 0 (Some (lit "AAAA")) (Some (lit "AAAAC")) 4 Hm).
Defined.

(** C8, counterexample. With a threshold of [0] the engine reports no
    error: on ["AAAA", "AAAA"] it returns ["AAAAAAAA"]. *)
Lemma nonpositive_threshold_returns :
  bad_threshold (fragments ["AAAA"; "AAAA"]) 0 0 ∧
  ∃ r, greedy_assemble_indexed by_elements (store_of (fragments ["AAAA"; "AAAA"])) 1 0 0
         = Returned r ∧
       run_out r = lit "AAAAAAAA".
Proof.
  split; [by left|]. eexists. split; [vm_compute; reflexivity|]. reflexivity.
Qed.

Section Scenarios.

Variable order : enumeration.
Hypothesis order_perm : ∀ st i s, order st i s ≡ₚ elements s.

(** C6. The engine returns after a pass without a merge, and the string
    it returns is the concatenation of the sequences of exactly the
    fragments still [Active] in its working list, taken by descending
    length, the smaller identifier first among fragments of one length. *)
Theorem finalizer_contract (h : store) (reads_in : loc) (xs : pylist) (k min_olap : Z) :
  h !! reads_in = Some xs →
  ∃ r ys (contigs : list (nat * str)),
    greedy_assemble_indexed order h reads_in k min_olap = Returned r ∧
    last (run_passes r) = Some [] ∧
    st_heap (run_final r) !! run_reads r = Some ys ∧
    (∀ i f, (i, f) ∈ contigs ↔ ys !! i = Some (Some f)) ∧
    StronglySorted contig_before contigs ∧
    run_out r = concat contigs.*2.
Proof.
  intros Hin.
  destruct (greedy_assemble_indexed_spec order order_perm k min_olap h reads_in xs Hin)
    as (r & Hr & Hok).
  destruct (ro_final _ _ _ _ _ _ Hok) as (ys & [Hh _] & Hout & _).
  destruct (finalizer_spec ys) as (contigs & Hmem & Hsorted & Hcat).
  exists r, ys, contigs. split; [done|].
  split; [apply log_shape_length, (ro_shape _ _ _ _ _ _ Hok)|].
  split; [done|]. split; [done|]. split; [done|]. by rewrite Hout.
Qed.

(** C8, as amended. A minimum overlap threshold that is not positive, or
    that exceeds the length of a fragment, is not reported as an error:
    the engine returns its assembled output. *)
Theorem bad_threshold_returns (h : store) (reads_in : loc) (xs : pylist)
    (k min_olap : Z) :
  h !! reads_in = Some xs → bad_threshold xs k min_olap →
  ∃ r, greedy_assemble_indexed order h reads_in k min_olap = Returned r.
Proof.
  intros Hin _.
  destruct (greedy_assemble_indexed_spec order order_perm k min_olap h reads_in xs Hin)
    as (r & Hr & _).
  by exists r.
Qed.

(** C9. On the fragments ["AAAA", "AAAA"] with [k = 4], whatever the
    order in which sets are enumerated, the engine makes one merge, in
    which fragment [0] absorbs fragment [1] (not itself) on an overlap of
    [4]; the merged sequence is ["AAAA"], fragment [0] is the only one
    left [Active], and the output is ["AAAA"]. *)
Theorem scenario_identical_fragments (h : store) (reads_in : loc) :
  h !! reads_in = Some (fragments ["AAAA"; "AAAA"]) →
  ∃ r ev,
    greedy_assemble_indexed order h reads_in 4 4 = Returned r ∧
    run_passes r = [[ev]; []] ∧
    ev_i ev = 0%nat ∧ ev_j ev = 1%nat ∧ ev_j ev ≠ ev_i ev ∧ ev_ol ev = 4 ∧
    ev_old_i ev = lit "AAAA" ∧ ev_old_j ev = lit "AAAA" ∧
    ev_merged ev = lit "AAAA" ∧
    st_heap (run_final r) !! run_reads r = Some [Some (lit "AAAA"); None] ∧
    run_out r = lit "AAAA".
Proof.
  intros Hin. unfold greedy_assemble_indexed, list_copy, list_load.
  rewrite Hin. cbn [mbind result_bind]. rewrite lookup_insert_eq.
  cbn [mbind result_bind]. set (l := fresh (dom h)).
  set (xs := fragments ["AAAA"; "AAAA"]).
  set (st0 := State (<[l := xs]> h) (build_prefix_index xs 4)).
  assert (Hg0 : good_state 4 l st0 xs).
  { split; [apply lookup_insert_eq|apply build_prefix_index_ok]. }
  (* position 0 of the first pass merges with fragment 1 *)
  destruct (scan_fragment_some order order_perm 4 4 l st0 xs 0 Hg0)
    as (ev & Hscan0 & Hb & Hevi & Hm).
  { simpl. lia. }
  { intros Hno.
    specialize (Hno (lit "AAAA") eq_refl ltac:(done) ltac:(by vm_compute)
                  1%nat (lit "AAAA")).
    assert (Hov : longest_overlap (lit "AAAA") (lit "AAAA") 4 = 4) by (by vm_compute).
    rewrite Hov in Hno. destruct Hno as [?|?]; [|lia|lia].
    split; [done|]. split; [|done].
    apply (proj2 Hg0). exists (Some (lit "AAAA")). split; [done|]. by vm_compute. }
  pose proof (mo_i _ _ _ _ _ Hm) as Hxi. rewrite Hevi in Hxi.
  injection Hxi as Holdi.
  destruct (mo_partner _ _ _ _ _ Hm) as (Hji & _ & Hxj & _). rewrite Hevi in Hji.
  assert (Hevj : ev_j ev = 1%nat).
  { apply lookup_lt_Some in Hxj as Hlt. simpl in Hlt. lia. }
  rewrite Hevj in Hxj. injection Hxj as Holdj.
  assert (Hol : ev_ol ev = 4).
  { rewrite (mo_ol _ _ _ _ _ Hm), <- Holdi, <- Holdj. by vm_compute. }
  assert (Hmerged : ev_merged ev = lit "AAAA").
  { rewrite (mo_merged _ _ _ _ _ Hm), Hol, <- Holdi, <- Holdj. by vm_compute. }
  destruct (merge_ok_after 4 4 l ev xs Hm) as (Hg1 & _).
  rewrite Hevi, Hevj, Hmerged in Hg1. simpl in Hg1.
  set (xs1 := [Some (lit "AAAA"); None]) in *.
  set (st1 := ev_after ev) in *.
  (* nothing else merges *)
  assert (Hscan1 : ∀ i, (i < 2)%nat →
    scan_fragment order 4 4 l st1 i = Returned (st1, None)).
  { intros i Hi. apply (scan_fragment_none order order_perm 4 4 l st1 xs1 i Hg1 Hi).
    intros r j rj Hr Hne Hj.
    destruct i as [|[|i]], j as [|[|j]]; simpl in *; try done; lia. }
  assert (Hpass0 : pass order 4 4 l st0 = Returned (st1, [ev])).
  { rewrite (pass_unfold order 4 4 l st0 xs Hg0). simpl.
    rewrite Hscan0. simpl. rewrite (Hscan1 1%nat) by lia. done. }
  assert (Hpass1 : pass order 4 4 l st1 = Returned (st1, [])).
  { rewrite (pass_unfold order 4 4 l st1 xs1 Hg1). simpl.
    rewrite (Hscan1 0%nat) by lia. simpl. rewrite (Hscan1 1%nat) by lia. done. }
  change (length xs) with 2%nat.
  cbn [assemble_loop]. rewrite Hpass0. cbn [mbind result_bind].
  rewrite Hpass1. cbn [mbind result_bind].
  rewrite (proj1 Hg1). cbn [mbind result_bind].
  eexists _, ev. split; [reflexivity|]. simpl.
  split; [done|]. split; [done|]. split; [done|]. split; [lia|].
  split; [done|]. split; [done|]. split; [done|]. split; [done|].
  split; [exact (proj1 Hg1)|]. by vm_compute.
Qed.

End Scenarios.

(** ** The claims at concrete inputs *)

(** The enumeration [by_elements] is admissible. *)
Lemma by_elements_perm (st : state) (i : nat) (s : gset nat) :
  by_elements st i s ≡ₚ elements s.
Proof. reflexivity. Defined.

(** C2 on scenario 1 of section 8, ["ACGTACG"] and ["TACGTTT"] with [k = 4]. *)
Lemma prefix_index_invariant_witness :
  1 ≤ 4 ∧
  ∃ r, greedy_assemble_indexed by_elements
         (store_of (fragments ["ACGTACG"; "TACGTTT"])) 1 4 4 = Returned r ∧
    ∀ st, st = run_init r ∨ (∃ ev, ev ∈ concat (run_passes r) ∧ st = ev_after ev) →
      ∃ ys, st_heap st !! run_reads r = Some ys ∧ index_invariant 4 ys (st_idx st).
Proof.
  split; [lia|].
  apply (prefix_index_invariant by_elements by_elements_perm
           (store_of (fragments ["ACGTACG"; "TACGTTT"])) 1
           (fragments ["ACGTACG"; "TACGTTT"]) 4 4); [lia|reflexivity].
Defined.

(** The amended C3 on scenario 1: two fragments, one merge, two passes. *)
Lemma engine_halts_witness :
  ∃ r, greedy_assemble_indexed by_elements
         (store_of (fragments ["ACGTACG"; "TACGTTT"])) 1 4 4 = Returned r ∧
    (length (concat (run_passes r)) ≤ 2 - 1)%nat ∧
    Forall (retires_one (run_reads r)) (concat (run_passes r)) ∧
    (length (run_passes r) ≤ Nat.max 2 1)%nat ∧
    last (run_passes r) = Some [].
Proof.
  apply (engine_halts by_elements by_elements_perm
           (store_of (fragments ["ACGTACG"; "TACGTTT"])) 1
           (fragments ["ACGTACG"; "TACGTTT"]) 4 4); reflexivity.
Defined.

(** C4 on scenario 1, whose run makes one merge. *)
Lemma merges_are_correct_witness :
  ∃ r, greedy_assemble_indexed by_elements
         (store_of (fragments ["ACGTACG"; "TACGTTT"])) 1 4 4 = Returned r ∧
    Forall (merge_correct (run_reads r)) (concat (run_passes r)).
Proof.
  apply (merges_are_correct by_elements by_elements_perm
           (store_of (fragments ["ACGTACG"; "TACGTTT"])) 1
           (fragments ["ACGTACG"; "TACGTTT"]) 4 4); reflexivity.
Defined.

(** C5 on scenario 1. *)
Lemma output_length_bound_witness :
  ∃ r, greedy_assemble_indexed by_elements
         (store_of (fragments ["ACGTACG"; "TACGTTT"])) 1 4 4 = Returned r ∧
    (length (run_out r) ≤ total_len (fragments ["ACGTACG"; "TACGTTT"]))%nat ∧
    (length (run_out r) = total_len (fragments ["ACGTACG"; "TACGTTT"]) →
     concat (run_passes r) = []).
Proof.
  apply (output_length_bound by_elements by_elements_perm
           (store_of (fragments ["ACGTACG"; "TACGTTT"])) 1
           (fragments ["ACGTACG"; "TACGTTT"]) 4 4); reflexivity.
Defined.

(** C6 on two fragments that do not overlap, of different lengths. *)
Lemma finalizer_contract_witness :
  ∃ r ys (contigs : list (nat * str)),
    greedy_assemble_indexed by_elements
      (store_of (fragments ["GGGG"; "CCCCC"])) 1 4 4 = Returned r ∧
    last (run_passes r) = Some [] ∧
    st_heap (run_final r) !! run_reads r = Some ys ∧
    (∀ i f, (i, f) ∈ contigs ↔ ys !! i = Some (Some f)) ∧
    StronglySorted contig_before contigs ∧
    run_out r = concat contigs.*2.
Proof.
  apply (finalizer_contract by_elements by_elements_perm
           (store_of (fragments ["GGGG"; "CCCCC"])) 1
           (fragments ["GGGG"; "CCCCC"]) 4 4); reflexivity.
Defined.

(** The amended C8 with both thresholds at [0]. *)
Lemma bad_threshold_returns_witness :
  bad_threshold (fragments ["AAAA"; "AAAA"]) 0 0 ∧
  ∃ r, greedy_assemble_indexed by_elements
         (store_of (fragments ["AAAA"; "AAAA"])) 1 0 0 = Returned r.
Proof.
  assert (Hbad : bad_threshold (fragments ["AAAA"; "AAAA"]) 0 0) by (left; lia).
  split; [exact Hbad|].
  apply (bad_threshold_returns by_elements by_elements_perm
           (store_of (fragments ["AAAA"; "AAAA"])) 1
           (fragments ["AAAA"; "AAAA"]) 0 0); [reflexivity|exact Hbad].
Defined.

(** C9 under the enumeration [by_elements]. *)
Lemma scenario_identical_fragments_witness :
  ∃ r ev,
    greedy_assemble_indexed by_elements
      (store_of (fragments ["AAAA"; "AAAA"])) 1 4 4 = Returned r ∧
    run_passes r = [[ev]; []] ∧
    ev_i ev = 0%nat ∧ ev_j ev = 1%nat ∧ ev_j ev ≠ ev_i ev ∧ ev_ol ev = 4 ∧
    ev_old_i ev = lit "AAAA" ∧ ev_old_j ev = lit "AAAA" ∧
    ev_merged ev = lit "AAAA" ∧
    st_heap (run_final r) !! run_reads r = Some [Some (lit "AAAA"); None] ∧
    run_out r = lit "AAAA".
Proof.
  apply (scenario_identical_fragments by_elements by_elements_perm
           (store_of (fragments ["AAAA"; "AAAA"])) 1); reflexivity.
Defined.

(** C10 on scenario 1: the caller's list, at reference [1], is as it was. *)
Lemma input_list_unchanged_witness :
  ∃ r, greedy_assemble_indexed by_elements
         (store_of (fragments ["ACGTACG"; "TACGTTT"])) 1 4 4 = Returned r ∧
    run_reads r ≠ 1%positive ∧
    st_heap (run_final r) !! 1%positive = Some (fragments ["ACGTACG"; "TACGTTT"]).
Proof.
  apply (input_list_unchanged by_elements by_elements_perm
           (store_of (fragments ["ACGTACG"; "TACGTTT"])) 1
           (fragments ["ACGTACG"; "TACGTTT"]) 4 4); reflexivity.
Defined.

(** * Further properties of the code *)

(** ** The matcher at its edges *)

(** X1. Whatever the threshold [m], a non-zero result of the matcher lies
    between [m] and [min(len a, len b)], and a positive result is a genuine
    overlap: that many last characters of [a] are the first of [b]. *)
Theorem longest_overlap_range (a b : str) (m : Z) :
  (longest_overlap a b m = 0 ∨
   (m ≤ longest_overlap a b m ∧ longest_overlap a b m ≤ Z.min (len a) (len b))) ∧
  (0 < longest_overlap a b m → overlap_at a b (longest_overlap a b m)).
Proof.
  split; [|by intros (_ & _ & ?)%longest_overlap_pos].
  unfold longest_overlap.
  destruct (decide (slice_from a (- m) ≠ slice_to b m)) as [|_]; [by left|].
  destruct (first_match_range a b (m - 1) _ (Z.min (len a) (len b)) eq_refl)
    as [[H0 _]|(Hr & _ & _)]; [by left|right; lia].
Qed.

Lemma longest_overlap_zero (a b : str) (m : Z) :
  m = 0 ∨ Z.min (len a) (len b) < m → longest_overlap a b m = 0.
Proof.
  intros Hm. unfold longest_overlap.
  destruct (decide (slice_from a (- m) ≠ slice_to b m)) as [|Heq]; [done|].
  destruct Hm as [->|Hm].
  - destruct (first_match_range a b (0 - 1) _ (Z.min (len a) (len b)) eq_refl)
      as [[H0 _]|(Hr & _ & _)]; [done|].
    assert (a = []) as ->.
    { destruct (decide (slice_from a (- 0) = slice_to b 0)) as [He|]; [|done].
      change (- 0) with 0 in He. by rewrite slice_from_nonneg, slice_to_nonneg in He. }
    unfold len in Hr |- *. cbn [length] in Hr |- *. lia.
  - by rewrite range_desc_nil by lia.
Qed.

(** X2. A threshold of [0], or one larger than the shorter of the two
    strings, makes the matcher return [0] whatever the strings are: with
    [0] the test [a[-0:] != b[:0]] compares the whole of [a] with the empty
    string. *)
Theorem longest_overlap_degenerate (a b : str) (m : Z) :
  m = 0 ∨ Z.min (len a) (len b) < m → longest_overlap a b m = 0.
Proof. apply longest_overlap_zero. Qed.

(** The threshold [0] on two strings that overlap by three characters. *)
Lemma longest_overlap_degenerate_witness :
  longest_overlap (lit "ACGT") (lit "CGTA") 0 = 0.
Proof. apply longest_overlap_degenerate. by left. Defined.

(** ** The index as a dictionary *)

Lemma bucket_index_add (idx : index) (p : str) (i : nat) (q : str) :
  bucket (index_add idx p i) q =
    if decide (q = p) then {[i]} ∪ bucket idx p else bucket idx q.
Proof.
  unfold bucket, index_add. destruct (decide (q = p)) as [->|Hne].
  - by rewrite lookup_insert_eq.
  - by rewrite lookup_insert_ne.
Qed.

Lemma bucket_index_discard (idx : index) (p : str) (i : nat) :
  ∃ idx', index_discard idx p i = Returned idx' ∧
    ∀ q, bucket idx' q = if decide (q = p) then bucket idx p ∖ {[i]} else bucket idx q.
Proof.
  unfold index_discard, bucket.
  destruct (idx !! p) as [s|] eqn:Hp.
  - destruct (decide (s ≠ ∅ ∧ i ∈ s)) as [[Hne Hin]|Hno].
    + unfold set_remove. rewrite decide_True by done. simpl.
      eexists. split; [done|]. intros q.
      destruct (decide (s ∖ {[i]} = ∅)) as [He|He]; destruct (decide (q = p)) as [->|Hq].
      * rewrite lookup_delete_eq. simpl. by rewrite He.
      * by rewrite lookup_delete_ne.
      * by rewrite lookup_insert_eq.
      * by rewrite lookup_insert_ne.
    + exists idx. split; [done|]. intros q. destruct (decide (q = p)) as [->|Hq]; [|done].
      rewrite ?Hp. simpl. apply set_eq. intros x. rewrite elem_of_difference, elem_of_singleton.
      split; [|by intros [? _]]. intros Hx. split; [done|]. intros ->.
      apply Hno. split; [|done]. intros ->. set_solver.
  - exists idx. split; [done|]. intros q. destruct (decide (q = p)) as [->|Hq]; [|done].
    rewrite ?Hp. simpl. set_solver.
Qed.

Lemma update_prefix_index_bucket (idx : index) (i : nat) (old new : option str) (k : Z) :
  ∃ idx', update_prefix_index idx i old new k = Returned idx' ∧
    ∀ q, bucket idx' q =
      (bucket idx q ∖ (if decide (key old k = Some q) then {[i]} else ∅)) ∪
      (if decide (key new k = Some q) then {[i]} else ∅).
Proof.
  unfold update_prefix_index, key.
  assert (∃ idx1,
    match usable old k with
    | Some old' => index_discard idx (slice_to old' k) i
    | None => Returned idx
    end = Returned idx1 ∧
    ∀ q, bucket idx1 q =
      bucket idx q ∖ (if decide ((λ r', slice_to r' k) <$> usable old k = Some q)
                      then {[i]} else ∅))
    as (idx1 & -> & H1).
  { destruct (usable old k) as [old'|]; simpl.
    - destruct (bucket_index_discard idx (slice_to old' k) i) as (idx1 & -> & H).
      exists idx1. split; [done|]. intros q. rewrite H.
      destruct (decide (q = slice_to old' k)) as [Hq|Hq];
        destruct (decide (Some (slice_to old' k) = Some q)) as [He|He];
        [by subst|exfalso; apply He; by subst|exfalso; apply Hq; congruence|set_solver].
    - exists idx. split; [done|]. intros q.
      destruct (decide (None = Some q)); [done|set_solver]. }
  simpl. destruct (usable new k) as [new'|]; simpl; eexists; (split; [done|]); intros q.
  - rewrite bucket_index_add, !H1.
    destruct (decide (q = slice_to new' k)) as [Hq|Hq];
      destruct (decide (Some (slice_to new' k) = Some q)) as [He|He];
      [subst; set_solver|exfalso; apply He; by subst|exfalso; apply Hq; congruence|
       set_solver].
  - rewrite H1. destruct (decide (None = Some q)); [done|set_solver].
Qed.

(** X3. A rebind never raises, and afterwards [idx.get(q, set())] is what
    it was, without [i] when [q] is the key of the old sequence and with
    [i] when [q] is the key of the new one. *)
Theorem rebind_lookup (idx : index) (i : nat) (old new : option str) (k : Z) :
  ∃ idx', update_prefix_index idx i old new k = Returned idx' ∧
    ∀ q, bucket idx' q =
      (bucket idx q ∖ (if decide (key old k = Some q) then {[i]} else ∅)) ∪
      (if decide (key new k = Some q) then {[i]} else ∅).
Proof. apply update_prefix_index_bucket. Qed.

(** X4. Looking a prefix up in the index that [build_prefix_index] returns
    gives exactly the positions of the fragments that are neither [None]
    nor empty, have at least [k] characters, and start with that prefix
    ([r[:k]] is the slice of Python, for any integer [k]). *)
Theorem build_prefix_index_lookup (reads : pylist) (k : Z) (p : str) (i : nat) :
  i ∈ bucket (build_prefix_index reads k) p ↔
    ∃ r, reads !! i = Some (Some r) ∧ r ≠ [] ∧ k ≤ len r ∧ slice_to r k = p.
Proof.
  unfold bucket. rewrite elem_of_bucket, (build_prefix_index_ok k reads p i).
  unfold key. split.
  - intros (r & Hr & Hk). destruct (usable r k) as [r'|] eqn:Hu; [|done].
    apply usable_Some in Hu as (-> & ? & ?). injection Hk as <-. by exists r'.
  - intros (r & Hr & Hne & Hlen & <-). exists (Some r). split; [done|].
    by rewrite (proj2 (usable_Some (Some r) k r)).
Qed.

(** ** The shape of the dictionary *)

Lemma len_slice_to (r : str) (k : Z) : 0 ≤ k → k ≤ len r → len (slice_to r k) = k.
Proof.
  intros H0 Hk. rewrite slice_to_nonneg by done. unfold len in *.
  rewrite length_take. lia.
Qed.

Lemma key_len (r : option str) (k : Z) (p : str) :
  0 ≤ k → key r k = Some p → len p = k.
Proof.
  intros H0. unfold key. destruct (usable r k) as [r'|] eqn:Hu; [|done].
  apply usable_Some in Hu as (_ & _ & Hlen). intros [= <-]. by apply len_slice_to.
Qed.

Lemma index_add_tidy (k : Z) (idx : index) (p : str) (i : nat) :
  index_tidy k idx → len p = k → index_tidy k (index_add idx p i).
Proof.
  intros Ht Hp q s. unfold index_add. destruct (decide (q = p)) as [->|Hq].
  - rewrite lookup_insert_eq. intros [= <-]. split; [set_solver|done].
  - rewrite lookup_insert_ne by done. apply Ht.
Qed.

Lemma index_discard_tidy (k : Z) (idx idx' : index) (p : str) (i : nat) :
  index_tidy k idx → index_discard idx p i = Returned idx' → index_tidy k idx'.
Proof.
  intros Ht. unfold index_discard. destruct (idx !! p) as [s|] eqn:Hp.
  - destruct (decide (s ≠ ∅ ∧ i ∈ s)) as [[Hne Hin]|Hno].
    + unfold set_remove. rewrite decide_True by done. simpl.
      destruct (decide (s ∖ {[i]} = ∅)) as [He|He]; intros [= <-] q s'.
      * destruct (decide (q = p)) as [->|Hq].
        -- by rewrite lookup_delete_eq.
        -- rewrite lookup_delete_ne by done. apply Ht.
      * destruct (decide (q = p)) as [->|Hq].
        -- rewrite lookup_insert_eq. intros [= <-]. split; [done|].
           by apply (Ht p s).
        -- rewrite lookup_insert_ne by done. apply Ht.
    + by intros [= <-].
  - by intros [= <-].
Qed.

Lemma update_prefix_index_tidy (k : Z) (idx idx' : index) (i : nat) (old new : option str) :
  0 ≤ k → index_tidy k idx →
  update_prefix_index idx i old new k = Returned idx' → index_tidy k idx'.
Proof.
  intros H0 Ht. unfold update_prefix_index.
  assert (∀ idx1,
    match usable old k with
    | Some old' => index_discard idx (slice_to old' k) i
    | None => Returned idx
    end = Returned idx1 → index_tidy k idx1) as H1.
  { intros idx1. destruct (usable old k) as [old'|].
    - by apply index_discard_tidy.
    - by intros [= <-]. }
  destruct (match usable old k with Some _ => _ | None => _ end) as [idx1|e]; [|done].
  specialize (H1 idx1 eq_refl). simpl.
  destruct (usable new k) as [new'|] eqn:Hn; intros [= <-]; [|done].
  apply index_add_tidy; [done|]. apply usable_Some in Hn as (_ & _ & ?).
  by apply len_slice_to.
Qed.


Lemma build_prefix_index_is_tidy (reads : pylist) (k : Z) :
  0 ≤ k → index_tidy k (build_prefix_index reads k).
Proof.
  intros H0. unfold build_prefix_index.
  assert (∀ idx i, index_tidy k idx → index_tidy k (build_loop idx i reads k)) as H.
  { induction reads as [|r reads IH]; intros idx i Ht; simpl; [done|].
    apply IH. destruct (usable r k) as [r'|] eqn:Hr; [|done].
    apply index_add_tidy; [done|]. apply usable_Some in Hr as (_ & _ & ?).
    by apply len_slice_to. }
  apply H. intros p s. by rewrite lookup_empty.
Qed.

(** X5. For [k >= 0] the dictionary that [build_prefix_index] returns holds
    no empty set, and each of its keys has exactly [k] characters. *)
Theorem build_prefix_index_tidy (reads : pylist) (k : Z) :
  0 ≤ k → index_tidy k (build_prefix_index reads k).
Proof. apply build_prefix_index_is_tidy. Qed.

(** The index of two reads that share their first four characters. *)
Lemma build_prefix_index_tidy_witness :
  index_tidy 4 (build_prefix_index (fragments ["ACGTAA"; "ACGTCC"]) 4).
Proof. apply build_prefix_index_tidy. lia. Defined.

(** X6. For [k >= 0] a rebind keeps the dictionary free of empty sets and
    its keys [k] characters long: a set emptied by the removal is popped. *)
Theorem rebind_keeps_tidy (k : Z) (idx idx' : index) (i : nat) (old new : option str) :
  0 ≤ k → index_tidy k idx →
  update_prefix_index idx i old new k = Returned idx' → index_tidy k idx'.
Proof. apply update_prefix_index_tidy. Qed.

(** Retiring the only fragment of a bucket: the bucket is popped. *)
Lemma rebind_keeps_tidy_witness :
  index_tidy 4 (build_prefix_index (fragments ["ACGTAA"]) 4) ∧
  update_prefix_index (build_prefix_index (fragments ["ACGTAA"]) 4) 0
    (Some (lit "ACGTAA")) None 4 = Returned ∅ ∧
  index_tidy 4 (∅ : index).
Proof.
  assert (Ht : index_tidy 4 (build_prefix_index (fragments ["ACGTAA"]) 4)).
  { apply build_prefix_index_is_tidy. lia. }
  assert (Hu : update_prefix_index (build_prefix_index (fragments ["ACGTAA"]) 4) 0
    (Some (lit "ACGTAA")) None 4 = Returned ∅) by (by vm_compute).
  split; [exact Ht|]. split; [exact Hu|].
  exact (rebind_keeps_tidy 4 _ ∅ 0 (Some (lit "ACGTAA")) None ltac:(lia) Ht Hu).
Defined.



(** ** What a run keeps *)


(** The merged sequence ends with the whole of the absorbed sequence. *)
Lemma merge_ok_suffix (k min_olap : Z) (reads : loc) (ev : merge_event) (xs : pylist) :
  merge_ok k min_olap reads ev xs →
  ev_merged ev =
    take (length (ev_old_i ev) - Z.to_nat (ev_ol ev)) (ev_old_i ev) ++ ev_old_j ev.
Proof.
  intros Hm.
  destruct (merge_ok_overlap k min_olap reads ev xs Hm) as (Hol1 & Holi & Holj & Hov).
  destruct Hov as (_ & _ & _ & Heq).
  rewrite (mo_merged _ _ _ _ _ Hm), slice_from_nonneg by lia.
  rewrite <- (take_drop (Z.to_nat (ev_ol ev)) (ev_old_j ev)) at 2.
  rewrite <- Heq, app_assoc, take_drop. done.
Qed.

(** The first event of a sequence of merge steps is taken from the list of
    the state the sequence starts in. *)
Lemma chain_first (k min_olap : Z) (reads : loc) (st st' : state) (xs : pylist)
    (ev : merge_event) (evs : list merge_event) :
  good_state k reads st xs → chain k min_olap reads st (ev :: evs) st' →
  merge_ok k min_olap reads ev xs ∧
  chain k min_olap reads (ev_after ev) evs st'.
Proof.
  intros Hg Hc. inversion Hc as [|st0 xs0 ev0 evs0 st0' Hb Hm Hc']; subst.
  by rewrite <- (good_state_agree _ _ _ _ _ (mo_before _ _ _ _ _ Hm) Hg).
Qed.

Lemma chain_nil_inv (k min_olap : Z) (reads : loc) (st st' : state) :
  chain k min_olap reads st [] st' → st' = st.
Proof. by inversion 1. Qed.

(** A property of the working list that every merge step keeps holds after
    any sequence of merge steps. *)
Lemma chain_invariant (k min_olap : Z) (reads : loc) (I : pylist → Prop) :
  (∀ ev xs, merge_ok k min_olap reads ev xs → I xs →
     I (<[ev_j ev := None]> (<[ev_i ev := Some (ev_merged ev)]> xs))) →
  ∀ st st' evs xs,
    good_state k reads st xs → I xs → chain k min_olap reads st evs st' →
    ∃ xs', good_state k reads st' xs' ∧ I xs'.
Proof.
  intros Hstep st st' evs xs Hg HI Hc. revert xs Hg HI.
  induction Hc as [|st xs0 ev evs st' Hb Hm Hc IH]; intros xs Hg HI; [by exists xs|].
  subst st. pose proof (good_state_agree _ _ _ _ _ (mo_before _ _ _ _ _ Hm) Hg) as ->.
  apply (IH _ (proj1 (merge_ok_after k min_olap reads ev xs Hm))).
  by apply Hstep.
Qed.

(** The three kinds of position a merge step distinguishes. *)
Lemma merge_ok_lookup (k min_olap : Z) (reads : loc) (ev : merge_event) (xs : pylist)
    (x : nat) :
  merge_ok k min_olap reads ev xs →
  <[ev_j ev := None]> (<[ev_i ev := Some (ev_merged ev)]> xs) !! x =
    if decide (x = ev_j ev) then Some None
    else if decide (x = ev_i ev) then Some (Some (ev_merged ev))
    else xs !! x.
Proof.
  intros Hm.
  destruct (mo_partner _ _ _ _ _ Hm) as (Hji & _ & Hj & _).
  pose proof (mo_i _ _ _ _ _ Hm) as Hi.
  apply lookup_lt_Some in Hj, Hi.
  destruct (decide (x = ev_j ev)) as [->|Hxj].
  - apply list_lookup_insert_eq. by rewrite length_insert.
  - rewrite list_lookup_insert_ne by done.
    destruct (decide (x = ev_i ev)) as [->|Hxi].
    + by apply list_lookup_insert_eq.
    + by rewrite list_lookup_insert_ne.
Qed.

Lemma infix_of_refl (f : str) : infix_of f f.
Proof. exists [], []. by rewrite app_nil_r. Qed.

Lemma infix_of_trans (f g h : str) : infix_of f g → infix_of g h → infix_of f h.
Proof.
  intros (p1 & q1 & ->) (p2 & q2 & ->). exists (p2 ++ p1), (q1 ++ q2).
  by rewrite <- !app_assoc.
Qed.

Lemma infix_of_concat (g : str) (l : list str) : g ∈ l → infix_of g (concat l).
Proof.
  intros (l1 & l2 & ->)%list_elem_of_split.
  exists (concat l1), (concat l2). by rewrite concat_app.
Qed.

Lemma insert_by_len_perm (x : str) (l : list str) : insert_by_len x l ≡ₚ x :: l.
Proof.
  induction l as [|y l IH]; simpl; [done|].
  destruct (length y <=? length x)%nat; [done|].
  rewrite IH. apply Permutation_swap.
Qed.

Lemma sort_by_len_desc_perm (l : list str) : sort_by_len_desc l ≡ₚ l.
Proof.
  induction l as [|x l IH]; simpl; [done|]. by rewrite insert_by_len_perm, IH.
Qed.

(** The contigs the finalizer sorts are the non-empty [Active] fragments. *)
Lemma elem_of_sorted_contigs (ys : pylist) (g : str) :
  g ∈ sort_by_len_desc (contigs_of ys) ↔ g ≠ [] ∧ ∃ j, ys !! j = Some (Some g).
Proof.
  rewrite sort_by_len_desc_perm. unfold contigs_of. rewrite list_elem_of_omap. split.
  - intros (r & Hr & Hk). apply list_elem_of_lookup in Hr as [j Hj].
    destruct r as [[|c r]|]; simpl in Hk; try done. injection Hk as <-.
    split; [done|by exists j].
  - intros (Hne & j & Hj). exists (Some g). split.
    + apply list_elem_of_lookup. by exists j.
    + by destruct g.
Qed.

Lemma key_app (r t : str) (k : Z) :
  0 ≤ k → k ≤ len r → r ≠ [] → key (Some (r ++ t)) k = key (Some r) k.
Proof.
  intros H0 Hk Hne. unfold key.
  rewrite (proj2 (usable_Some (Some r) k r)) by done.
  rewrite (proj2 (usable_Some (Some (r ++ t)) k (r ++ t))).
  - simpl. rewrite !slice_to_nonneg by done. f_equal. unfold len in Hk.
    by rewrite take_app_le by lia.
  - split; [done|]. split; [by destruct r|]. unfold len in *. rewrite length_app. lia.
Qed.

Lemma elem_of_concat_str (c : ascii) (l : list str) :
  c ∈ concat l ↔ ∃ g, g ∈ l ∧ c ∈ g.
Proof.
  induction l as [|x l IH]; simpl.
  - split; [by intros ?%elem_of_nil|]. by intros (g & ?%elem_of_nil & _).
  - rewrite elem_of_app, IH. split.
    + intros [Hc|(g & Hg & Hc)]; [exists x|exists g]; (split; [|done]);
        [by left|by right].
    + intros (g & [->|Hg]%elem_of_cons & Hc); [by left|right; by exists g].
Qed.

(** A position that holds [None] is neither read nor written by the merge
    steps that follow. *)
Lemma chain_retired (k min_olap : Z) (reads : loc) (st st' : state)
    (evs : list merge_event) (xs : pylist) (j : nat) :
  good_state k reads st xs → xs !! j = Some None →
  chain k min_olap reads st evs st' →
  Forall (λ ev, ev_j ev ≠ j ∧ ev_i ev ≠ j) evs ∧
  ∃ xs', good_state k reads st' xs' ∧ xs' !! j = Some None.
Proof.
  intros Hg Hj Hc. revert xs Hg Hj.
  induction Hc as [|st xs0 ev evs st' Hb Hm Hc IH]; intros xs Hg Hj.
  - split; [constructor|]. by exists xs.
  - subst st. pose proof (good_state_agree _ _ _ _ _ (mo_before _ _ _ _ _ Hm) Hg) as ->.
    destruct (mo_partner _ _ _ _ _ Hm) as (_ & _ & Hxj & _).
    pose proof (mo_i _ _ _ _ _ Hm) as Hxi.
    assert (Hne : ev_j ev ≠ j ∧ ev_i ev ≠ j) by (split; intros Heq; subst j; congruence).
    destruct (IH _ (proj1 (merge_ok_after k min_olap reads ev xs Hm))) as [Hall Hfin].
    { rewrite (merge_ok_lookup k min_olap reads ev xs j Hm).
      destruct Hne as [? ?]. by rewrite !decide_False by done. }
    split; [by constructor|done].
Qed.

Lemma chain_absorbed_once (k min_olap : Z) (reads : loc) (st st' : state)
    (evs : list merge_event) (xs : pylist) :
  good_state k reads st xs → chain k min_olap reads st evs st' →
  NoDup (ev_j <$> evs) ∧
  ∃ xs', good_state k reads st' xs' ∧ Forall (λ ev, xs' !! ev_j ev = Some None) evs.
Proof.
  intros Hg Hc. revert xs Hg.
  induction Hc as [|st xs0 ev evs st' Hb Hm Hc IH]; intros xs Hg.
  - split; [constructor|]. exists xs. by split.
  - subst st. pose proof (good_state_agree _ _ _ _ _ (mo_before _ _ _ _ _ Hm) Hg) as ->.
    pose proof (proj1 (merge_ok_after k min_olap reads ev xs Hm)) as Hg1.
    destruct (IH _ Hg1) as (Hnd & xs' & Hg' & Hall).
    assert (Hlook : <[ev_j ev := None]> (<[ev_i ev := Some (ev_merged ev)]> xs)
                      !! ev_j ev = Some None).
    { rewrite (merge_ok_lookup k min_olap reads ev xs _ Hm). by rewrite decide_True. }
    destruct (chain_retired k min_olap reads _ _ _ _ (ev_j ev) Hg1 Hlook Hc)
      as (Hne & xs'' & Hg'' & Hfin).
    rewrite (good_state_agree _ _ _ _ _ Hg'' Hg') in Hfin.
    split.
    + rewrite fmap_cons. apply NoDup_cons. split; [|done].
      intros (ev' & Heq & Hin)%list_elem_of_fmap.
      rewrite Forall_forall in Hne. destruct (Hne ev' Hin) as [? _]. congruence.
    + exists xs'. split; [done|]. by constructor.
Qed.

Section RunProperties.

Variable order : enumeration.
Hypothesis order_perm : ∀ st i s, order st i s ≡ₚ elements s.

(** X8. For [k >= 0] a merge changes the index only by unbinding the
    absorbed fragment: after it every bucket is what it was before, without
    [j]; the absorbing fragment, whose first [k] characters did not change,
    stays in its bucket. *)
Theorem merge_only_unbinds_absorbed (h : store) (reads_in : loc) (xs : pylist)
    (k min_olap : Z) :
  0 ≤ k → h !! reads_in = Some xs →
  ∃ r, greedy_assemble_indexed order h reads_in k min_olap = Returned r ∧
    Forall (λ ev, ∀ q,
              bucket (st_idx (ev_after ev)) q =
              bucket (st_idx (ev_before ev)) q ∖ {[ev_j ev]})
      (concat (run_passes r)).
Proof.
  intros H0 Hin.
  destruct (greedy_assemble_indexed_spec order order_perm k min_olap h reads_in xs Hin)
    as (r & Hr & Hok).
  exists r. split; [done|].
  eapply Forall_impl; [exact (chain_events _ _ _ _ _ _ (ro_chain _ _ _ _ _ _ Hok))|].
  intros ev [zs Hm] q. apply set_eq. intros x.
  rewrite elem_of_difference, elem_of_singleton. unfold bucket.
  rewrite !elem_of_bucket, (mo_after _ _ _ _ _ Hm q x).
  rewrite (proj2 (mo_before _ _ _ _ _ Hm) q x).
  rewrite (merge_ok_lookup k min_olap (run_reads r) ev zs x Hm).
  pose proof (mo_i _ _ _ _ _ Hm) as Hi.
  destruct (decide (x = ev_j ev)) as [->|Hxj].
  - split; [|by intros [_ ?]]. by intros (r' & [= <-] & ?).
  - destruct (decide (x = ev_i ev)) as [->|Hxi].
    + assert (Hkey : key (Some (ev_merged ev)) k = key (Some (ev_old_i ev)) k).
      { rewrite (mo_merged _ _ _ _ _ Hm).
        apply key_app; [done|apply (mo_long _ _ _ _ _ Hm)|apply (mo_nonempty _ _ _ _ _ Hm)]. }
      split.
      * intros (r' & [= <-] & Hk). split; [|done].
        exists (Some (ev_old_i ev)). split; [done|]. by rewrite <- Hkey.
      * intros [(r' & Hr' & Hk) _]. rewrite Hi in Hr'. injection Hr' as <-.
        exists (Some (ev_merged ev)). split; [done|]. by rewrite Hkey.
    + split; [by intros ?|by intros [? _]].
Qed.

(** X9. Every merge keeps both reads whole: the merged sequence begins
    with the sequence of the absorbing fragment and ends with the whole
    sequence of the absorbed one. *)
Theorem merges_keep_both_reads (h : store) (reads_in : loc) (xs : pylist)
    (k min_olap : Z) :
  h !! reads_in = Some xs →
  ∃ r, greedy_assemble_indexed order h reads_in k min_olap = Returned r ∧
    Forall (λ ev, ev_old_i ev `prefix_of` ev_merged ev ∧
                  ev_old_j ev `suffix_of` ev_merged ev)
      (concat (run_passes r)).
Proof.
  intros Hin.
  destruct (greedy_assemble_indexed_spec order order_perm k min_olap h reads_in xs Hin)
    as (r & Hr & Hok).
  exists r. split; [done|].
  eapply Forall_impl; [exact (chain_events _ _ _ _ _ _ (ro_chain _ _ _ _ _ _ Hok))|].
  intros ev [zs Hm]. split.
  - rewrite (mo_merged _ _ _ _ _ Hm). by eexists.
  - rewrite (merge_ok_suffix _ _ _ _ _ Hm). by eexists.
Qed.

Lemma run_contains_reads (h : store) (reads_in : loc) (xs : pylist)
    (k min_olap : Z) :
  h !! reads_in = Some xs →
  ∃ r, greedy_assemble_indexed order h reads_in k min_olap = Returned r ∧
    ∀ i f, xs !! i = Some (Some f) → infix_of f (run_out r).
Proof.
  intros Hin.
  destruct (greedy_assemble_indexed_spec order order_perm k min_olap h reads_in xs Hin)
    as (r & Hr & Hok).
  exists r. split; [done|].
  set (I := λ ys : pylist, ∀ i f, xs !! i = Some (Some f) →
                 ∃ j g, ys !! j = Some (Some g) ∧ infix_of f g).
  assert (Hstep : ∀ ev zs, merge_ok k min_olap (run_reads r) ev zs → I zs →
            I (<[ev_j ev := None]> (<[ev_i ev := Some (ev_merged ev)]> zs))).
  { intros ev zs Hm HI i f Hi. destruct (HI i f Hi) as (j & g & Hj & Hfg).
    pose proof (mo_i _ _ _ _ _ Hm) as Hzi.
    destruct (mo_partner _ _ _ _ _ Hm) as (Hji & _ & Hzj & _).
    pose proof (merge_ok_lookup k min_olap (run_reads r) ev zs (ev_i ev) Hm) as Hnew.
    rewrite decide_False, decide_True in Hnew by done.
    destruct (decide (j = ev_i ev)) as [->|Hni]; [|destruct (decide (j = ev_j ev)) as [->|Hnj]].
    - exists (ev_i ev), (ev_merged ev). split; [done|].
      rewrite Hzi in Hj. injection Hj as <-. eapply infix_of_trans; [done|].
      exists [], (slice_from (ev_old_j ev) (ev_ol ev)). by rewrite (mo_merged _ _ _ _ _ Hm).
    - exists (ev_i ev), (ev_merged ev). split; [done|].
      rewrite Hzj in Hj. injection Hj as <-. eapply infix_of_trans; [done|].
      eexists _, []. rewrite app_nil_r. apply (merge_ok_suffix _ _ _ _ _ Hm).
    - exists j, g. split; [|done].
      rewrite (merge_ok_lookup k min_olap (run_reads r) ev zs j Hm).
      by rewrite !decide_False by done. }
  assert (HI0 : I xs).
  { intros i f Hi. exists i, f. split; [done|apply infix_of_refl]. }
  destruct (chain_invariant k min_olap (run_reads r) I Hstep _ _ _ _
              (ro_init _ _ _ _ _ _ Hok) HI0 (ro_chain _ _ _ _ _ _ Hok))
    as (ys & Hg & HI).
  destruct (ro_final _ _ _ _ _ _ Hok) as (ys' & Hg' & Hout & _).
  rewrite (good_state_agree _ _ _ _ _ Hg' Hg) in Hout.
  intros i f Hi. destruct (HI i f Hi) as (j & g & Hj & Hfg).
  destruct (decide (g = [])) as [->|Hne].
  - destruct Hfg as (pre & post & Heq). symmetry in Heq.
    apply app_eq_nil in Heq as [_ [-> _]%app_eq_nil]. by exists [], (run_out r).
  - eapply infix_of_trans; [done|]. rewrite Hout. apply infix_of_concat.
    apply elem_of_sorted_contigs. split; [done|by exists j].
Qed.

(** X10. Every input fragment occurs in the output, as a contiguous
    substring: nothing that was read is lost by the assembly. *)
Theorem output_contains_reads (h : store) (reads_in : loc) (xs : pylist)
    (k min_olap : Z) :
  h !! reads_in = Some xs →
  ∃ r, greedy_assemble_indexed order h reads_in k min_olap = Returned r ∧
    ∀ i f, xs !! i = Some (Some f) → infix_of f (run_out r).
Proof. apply run_contains_reads. Qed.

Lemma run_alphabet (h : store) (reads_in : loc) (xs : pylist) (k min_olap : Z) :
  h !! reads_in = Some xs →
  ∃ r, greedy_assemble_indexed order h reads_in k min_olap = Returned r ∧
    ∀ c, c ∈ run_out r → ∃ i f, xs !! i = Some (Some f) ∧ c ∈ f.
Proof.
  intros Hin.
  destruct (greedy_assemble_indexed_spec order order_perm k min_olap h reads_in xs Hin)
    as (r & Hr & Hok).
  exists r. split; [done|].
  set (I := λ ys : pylist, ∀ j g c, ys !! j = Some (Some g) → c ∈ g →
                 ∃ i f, xs !! i = Some (Some f) ∧ c ∈ f).
  assert (Hstep : ∀ ev zs, merge_ok k min_olap (run_reads r) ev zs → I zs →
            I (<[ev_j ev := None]> (<[ev_i ev := Some (ev_merged ev)]> zs))).
  { intros ev zs Hm HI j g c Hj Hc.
    rewrite (merge_ok_lookup k min_olap (run_reads r) ev zs j Hm) in Hj.
    destruct (decide (j = ev_j ev)) as [->|Hnj]; [done|].
    destruct (decide (j = ev_i ev)) as [->|Hni]; [|by eapply HI].
    injection Hj as <-. rewrite (mo_merged _ _ _ _ _ Hm) in Hc.
    destruct (merge_ok_overlap k min_olap (run_reads r) ev zs Hm) as (Hol1 & _).
    rewrite slice_from_nonneg in Hc by lia.
    apply elem_of_app in Hc as [Hc|Hc].
    - by apply (HI (ev_i ev) (ev_old_i ev) c (mo_i _ _ _ _ _ Hm)).
    - destruct (mo_partner _ _ _ _ _ Hm) as (_ & _ & Hzj & _).
      apply (HI (ev_j ev) (ev_old_j ev) c Hzj). by eapply subseteq_drop. }
  assert (HI0 : I xs).
  { intros j g c Hj Hc. by exists j, g. }
  destruct (chain_invariant k min_olap (run_reads r) I Hstep _ _ _ _
              (ro_init _ _ _ _ _ _ Hok) HI0 (ro_chain _ _ _ _ _ _ Hok))
    as (ys & Hg & HI).
  destruct (ro_final _ _ _ _ _ _ Hok) as (ys' & Hg' & Hout & _).
  rewrite (good_state_agree _ _ _ _ _ Hg' Hg) in Hout.
  intros c Hc. rewrite Hout in Hc.
  apply elem_of_concat_str in Hc as (g & Hgin & Hc).
  apply elem_of_sorted_contigs in Hgin as (_ & j & Hj). by apply (HI j g c).
Qed.

(** X11. The output has no character of its own: each of its characters
    occurs in an input fragment. *)
Theorem output_alphabet (h : store) (reads_in : loc) (xs : pylist) (k min_olap : Z) :
  h !! reads_in = Some xs →
  ∃ r, greedy_assemble_indexed order h reads_in k min_olap = Returned r ∧
    ∀ c, c ∈ run_out r → ∃ i f, xs !! i = Some (Some f) ∧ c ∈ f.
Proof. apply run_alphabet. Qed.

(** X12. Retirement is final: no fragment is absorbed twice, and every
    fragment a merge absorbed is still [None] when the engine returns. *)
Theorem absorbed_once_and_for_all (h : store) (reads_in : loc) (xs : pylist)
    (k min_olap : Z) :
  h !! reads_in = Some xs →
  ∃ r ys, greedy_assemble_indexed order h reads_in k min_olap = Returned r ∧
    st_heap (run_final r) !! run_reads r = Some ys ∧
    NoDup (ev_j <$> concat (run_passes r)) ∧
    Forall (λ ev, ys !! ev_j ev = Some None) (concat (run_passes r)).
Proof.
  intros Hin.
  destruct (greedy_assemble_indexed_spec order order_perm k min_olap h reads_in xs Hin)
    as (r & Hr & Hok).
  destruct (chain_absorbed_once _ _ _ _ _ _ _ (ro_init _ _ _ _ _ _ Hok)
              (ro_chain _ _ _ _ _ _ Hok)) as (Hnd & ys & [Hh _] & Hall).
  by exists r, ys.
Qed.

(** X13. The books balance: the length of the output is the total length
    of the input fragments less the overlaps of the merges, and the number
    of fragments that are not [None] at the end is their number at the start
    less the number of merges. *)
Theorem run_accounting (h : store) (reads_in : loc) (xs : pylist) (k min_olap : Z) :
  h !! reads_in = Some xs →
  ∃ r ys, greedy_assemble_indexed order h reads_in k min_olap = Returned r ∧
    st_heap (run_final r) !! run_reads r = Some ys ∧
    Z.of_nat (length (run_out r)) + overlap_total (concat (run_passes r)) =
      Z.of_nat (total_len xs) ∧
    (active ys + length (concat (run_passes r)) = active xs)%nat.
Proof.
  intros Hin.
  destruct (greedy_assemble_indexed_spec order order_perm k min_olap h reads_in xs Hin)
    as (r & Hr & Hok).
  destruct (chain_facts _ _ _ _ _ _ _ (ro_init _ _ _ _ _ _ Hok) (ro_chain _ _ _ _ _ _ Hok))
    as (ys & Hg & _ & Hact & _ & Htot & _).
  destruct (ro_final _ _ _ _ _ _ Hok) as (ys' & Hg' & Hout & _).
  rewrite (good_state_agree _ _ _ _ _ Hg' Hg) in Hout.
  exists r, ys. split; [done|]. split; [apply Hg|]. split; [|done].
  by rewrite Hout, length_concat_sort, length_concat_contigs.
Qed.


(** X15. A threshold that selects nothing makes the engine a sort: when
    [k = 0], or [min_olap = 0], or every fragment is shorter than [k] or
    than [min_olap], the engine makes a single pass without a merge and
    returns the input fragments concatenated longest first. *)
Theorem degenerate_threshold_no_merge (h : store) (reads_in : loc) (xs : pylist)
    (k min_olap : Z) :
  h !! reads_in = Some xs →
  k = 0 ∨ min_olap = 0 ∨
    (∀ f, Some f ∈ xs → len f < k) ∨ (∀ f, Some f ∈ xs → len f < min_olap) →
  ∃ r, greedy_assemble_indexed order h reads_in k min_olap = Returned r ∧
    run_passes r = [[]] ∧
    st_heap (run_final r) !! run_reads r = Some xs ∧
    run_out r = concat (sort_by_len_desc (contigs_of xs)).
Proof.
  intros Hin Hdeg.
  destruct (greedy_assemble_indexed_spec order order_perm k min_olap h reads_in xs Hin)
    as (r & Hr & Hok).
  exists r. split; [done|].
  pose proof (ro_chain _ _ _ _ _ _ Hok) as Hc.
  pose proof (ro_init _ _ _ _ _ _ Hok) as Hg0.
  assert (Hnone : concat (run_passes r) = []).
  { destruct (concat (run_passes r)) as [|ev evs]; [done|]. exfalso.
    destruct (chain_first _ _ _ _ _ _ _ _ Hg0 Hc) as [Hm _].
    pose proof (mo_i _ _ _ _ _ Hm) as Hi.
    destruct (mo_partner _ _ _ _ _ Hm) as (_ & Hidx & _ & _).
    pose proof (mo_pos _ _ _ _ _ Hm) as Hpos. rewrite (mo_ol _ _ _ _ _ Hm) in Hpos.
    assert (Hmem : Some (ev_old_i ev) ∈ xs) by (apply list_elem_of_lookup; eauto).
    destruct Hdeg as [->|[->|[Hshort|Hshort]]].
    - apply (proj2 (mo_before _ _ _ _ _ Hm)) in Hidx as (r' & _ & Hkey).
      apply key_len in Hkey; [|done]. change (- 0) with 0 in Hkey.
      rewrite slice_from_nonneg in Hkey by done. simpl in Hkey.
      apply (mo_nonempty _ _ _ _ _ Hm). unfold len in Hkey.
      by destruct (ev_old_i ev).
    - rewrite longest_overlap_zero in Hpos by (by left). lia.
    - pose proof (mo_long _ _ _ _ _ Hm). specialize (Hshort _ Hmem). lia.
    - specialize (Hshort _ Hmem).
      rewrite longest_overlap_zero in Hpos by (right; lia). lia. }
  rewrite Hnone in Hc. apply chain_nil_inv in Hc.
  destruct (ro_shape _ _ _ _ _ _ Hok) as (prod & Hlog & Hprod).
  assert (prod = []) as ->.
  { destruct Hprod as [|evs prod Hne _]; [done|].
    rewrite Hlog in Hnone. simpl in Hnone. by destruct evs. }
  destruct (ro_final _ _ _ _ _ _ Hok) as (ys & Hg & Hout & _).
  rewrite Hc in Hg. rewrite (good_state_agree _ _ _ _ _ Hg Hg0) in Hout.
  split; [done|]. split; [|done]. rewrite Hc. apply Hg0.
Qed.

End RunProperties.

(** ** The read sampler *)

Arguments randint : simpl never.
Arguments slice : simpl never.

Lemma randint_range (draw : nat → Z) (n : nat) (a b : Z) :
  a ≤ b → ∃ v, randint draw n a b = Done v ∧ a ≤ v ≤ b.
Proof.
  intros Hab. unfold randint. destruct (Z.ltb_spec b a) as [?|_]; [lia|].
  eexists. split; [done|].
  pose proof (Z.mod_pos_bound (draw n) (b - a + 1) ltac:(lia)). lia.
Qed.

Lemma slice_within (s : str) (start k : Z) :
  0 ≤ start → 0 ≤ k → start + k ≤ len s →
  slice s start (start + k) = take (Z.to_nat k) (drop (Z.to_nat start) s) ∧
  len (slice s start (start + k)) = k.
Proof.
  intros Hs Hk Hlen. unfold slice, clamp, len in *.
  destruct (Z.ltb_spec start 0) as [?|_]; [lia|].
  destruct (Z.ltb_spec (start + k) 0) as [?|_]; [lia|].
  replace (Z.to_nat (Z.min (start + k) (Z.of_nat (length s))) -
           Z.to_nat (Z.min start (Z.of_nat (length s))))%nat with (Z.to_nat k) by lia.
  replace (Z.to_nat (Z.min start (Z.of_nat (length s)))) with (Z.to_nat start) by lia.
  split; [done|]. rewrite length_take, length_drop. lia.
Qed.

Lemma infix_of_take_drop (s : str) (n m : nat) : infix_of (take n (drop m s)) s.
Proof.
  exists (take m s), (drop n (drop m s)). by rewrite take_drop, take_drop.
Qed.

(** The loop appends a read at every iteration when the range of lengths
    lies within [0 .. len(seq)]. *)
Lemma sample_loop_ok (draw : nat → Z) (seq : str) (n_reads lo hi : Z)
    (fuel n : nat) (reads : list str) :
  0 ≤ lo → lo ≤ hi → hi ≤ len seq →
  (Z.to_nat n_reads - length reads ≤ fuel)%nat →
  Forall (λ r, lo ≤ len r ≤ hi ∧ infix_of r seq) reads →
  ∃ reads', sample_loop draw seq n_reads lo hi fuel n reads = Done reads' ∧
    length reads' = Nat.max (Z.to_nat n_reads) (length reads) ∧
    Forall (λ r, lo ≤ len r ≤ hi ∧ infix_of r seq) reads'.
Proof.
  intros Hlo Hhi HL. revert n reads.
  induction fuel as [|fuel IH]; intros n reads Hfuel Hall;
    cbn [sample_loop]; destruct (Z.ltb_spec (Z.of_nat (length reads)) n_reads) as [Hlt|Hge];
    try lia; try (exists reads; split; [done|]; split; [lia|done]).
  destruct (randint_range draw n lo hi Hhi) as (k & -> & Hk). cbn [mbind outcome_bind].
  destruct (randint_range draw (S n) 0 (len seq - k) ltac:(lia)) as (start & -> & Hstart).
  cbn [mbind outcome_bind].
  destruct (slice_within seq start k) as [Heq Hlen]; [lia..|].
  rewrite Hlen, Z.eqb_refl.
  destruct (IH (S (S n)) (reads ++ [slice seq start (start + k)])) as (reads' & -> & Hl & Hall').
  - rewrite length_app. simpl. lia.
  - apply Forall_app. split; [done|]. constructor; [|done].
    split; [lia|]. rewrite Heq. apply infix_of_take_drop.
  - exists reads'. split; [done|]. split; [|done].
    rewrite length_app in Hl. simpl in Hl. lia.
Qed.

Lemma sample_reads_in_range (draw : nat → Z) (fuel : nat) (seq : str)
    (n_reads lo hi : Z) :
  0 ≤ lo → lo ≤ hi → hi ≤ len seq → (Z.to_nat n_reads ≤ fuel)%nat →
  ∃ reads, sample_reads draw fuel seq n_reads (lo, hi) = Done reads ∧
    length reads = Z.to_nat n_reads ∧
    Forall (λ r, lo ≤ len r ≤ hi ∧ infix_of r seq) reads.
Proof.
  intros Hlo Hhi HL Hfuel. unfold sample_reads.
  destruct (Z.ltb_spec (len seq) hi) as [?|_]; [lia|].
  destruct (sample_loop_ok draw seq n_reads lo hi fuel 0 [] Hlo Hhi HL)
    as (reads & -> & Hl & Hall); [simpl; lia|constructor|].
  exists reads. split; [done|]. split; [simpl in Hl; lia|done].
Qed.

(** X16. When [0 <= lo <= hi <= len(seq)], whatever the generator draws,
    [sample_reads] returns after [n_reads] iterations, with exactly
    [n_reads] reads (none when [n_reads] is negative), each of a length
    between [lo] and [hi] and each a contiguous substring of [seq]: the
    three assertions [main] makes on its result hold. *)
Theorem sample_reads_ok (draw : nat → Z) (fuel : nat) (seq : str) (n_reads lo hi : Z) :
  0 ≤ lo → lo ≤ hi → hi ≤ len seq → (Z.to_nat n_reads ≤ fuel)%nat →
  ∃ reads, sample_reads draw fuel seq n_reads (lo, hi) = Done reads ∧
    length reads = Z.to_nat n_reads ∧
    Forall (λ r, lo ≤ len r ≤ hi ∧ infix_of r seq) reads.
Proof. apply sample_reads_in_range. Qed.

(** Three reads of two to four characters from a sequence of eight. *)
Lemma sample_reads_ok_witness :
  ∃ reads, sample_reads (λ n, Z.of_nat n) 3 (lit "ACGTTGCA") 3 (2, 4) = Done reads ∧
    length reads = Z.to_nat 3 ∧
    Forall (λ r, 2 ≤ len r ≤ 4 ∧ infix_of r (lit "ACGTTGCA")) reads.
Proof.
  apply (sample_reads_ok (λ n, Z.of_nat n) 3 (lit "ACGTTGCA") 3 2 4);
    [lia|lia|by vm_compute|lia].
Defined.

(** X17. [sample_reads] raises [ValueError] when the upper bound of the
    lengths exceeds the length of the sequence, by its own test, and, when
    a read is asked for, when the range of lengths is empty, by
    [random.randint]. *)
Theorem sample_reads_value_error (draw : nat → Z) (fuel : nat) (seq : str)
    (n_reads lo hi : Z) :
  len seq < hi ∨ (hi < lo ∧ 0 < n_reads ∧ fuel ≠ 0%nat) →
  sample_reads draw fuel seq n_reads (lo, hi) = Failed ValueError.
Proof.
  intros Hbad. unfold sample_reads.
  destruct (Z.ltb_spec (len seq) hi) as [?|Hle]; [done|].
  destruct Hbad as [?|(Hempty & Hn & Hfuel)]; [lia|].
  destruct fuel as [|fuel]; [done|]. cbn [sample_loop length].
  destruct (Z.ltb_spec (Z.of_nat 0) n_reads) as [_|?]; [|lia].
  unfold randint. destruct (Z.ltb_spec hi lo) as [_|?]; [done|lia].
Qed.

(** Reads of up to nine characters from a sequence of eight. *)
Lemma sample_reads_value_error_witness :
  sample_reads (λ n, Z.of_nat n) 3 (lit "ACGTTGCA") 3 (2, 9) = Failed ValueError.
Proof.
  apply sample_reads_value_error. left. by vm_compute.
Defined.

(** X18. With a range of negative lengths the loop of [sample_reads] makes
    no progress: no slice has a negative length, so nothing is appended,
    and the call does not return, however many iterations it is given. *)
Theorem sample_reads_negative_lengths (draw : nat → Z) (fuel : nat) (seq : str)
    (n_reads lo hi : Z) :
  lo ≤ hi → hi < 0 → 0 < n_reads →
  sample_reads draw fuel seq n_reads (lo, hi) = Failed Exhausted.
Proof.
  intros Hlo Hhi Hn. unfold sample_reads.
  destruct (Z.ltb_spec (len seq) hi) as [?|_]; [unfold len in *; lia|].
  generalize 0%nat. induction fuel as [|fuel IH]; intros n; cbn [sample_loop length];
    destruct (Z.ltb_spec (Z.of_nat 0) n_reads) as [_|?]; try lia; [done|].
  destruct (randint_range draw n lo hi Hlo) as (k & -> & Hk). cbn [mbind outcome_bind].
  destruct (randint_range draw (S n) 0 (len seq - k)) as (start & -> & Hstart);
    [unfold len; lia|].
  cbn [mbind outcome_bind].
  destruct (Z.eqb_spec (len (slice seq start (start + k))) k) as [He|_]; [|apply IH].
  unfold len in He. lia.
Qed.

(** One read of a length between [-3] and [-1]. *)
Lemma sample_reads_negative_lengths_witness :
  sample_reads (λ n, Z.of_nat n) 50 (lit "ACGTTGCA") 1 (-3, -1) = Failed Exhausted.
Proof. apply sample_reads_negative_lengths; lia. Defined.

(** ** The checks on the reads *)

Lemma bad_positions_nil (i : nat) (reads : list str) (lo hi : Z) :
  bad_positions i reads lo hi = [] ↔ Forall (λ r, lo ≤ len r ≤ hi) reads.
Proof.
  revert i. induction reads as [|r reads IH]; intros i; simpl.
  - split; [constructor|done].
  - destruct (Z.leb_spec lo (len r)), (Z.leb_spec (len r) hi); simpl.
    + rewrite IH. split; [by constructor; [lia|]|by intros [_ ?]%Forall_cons].
    + split; [done|]. intros [? _]%Forall_cons. lia.
    + split; [done|]. intros [? _]%Forall_cons. lia.
    + split; [done|]. intros [? _]%Forall_cons. lia.
Qed.

Lemma foldr_min_spec (x : Z) (l : list Z) :
  Forall (λ y, foldr Z.min x l ≤ y) (x :: l) ∧ foldr Z.min x l ∈ x :: l.
Proof.
  induction l as [|y l [IH1 IH2]]; simpl.
  - split; [by repeat constructor|by left].
  - apply Forall_cons in IH1 as [Hx Hl]. split.
    + constructor; [lia|]. constructor; [lia|].
      eapply Forall_impl; [exact Hl|]. simpl. intros; lia.
    + destruct (Z.min_spec y (foldr Z.min x l)) as [[_ ->]|[_ ->]].
      * right. by left.
      * apply elem_of_cons in IH2 as [->|?]; [by left|by right; right].
Qed.

Lemma foldr_max_spec (x : Z) (l : list Z) :
  Forall (λ y, y ≤ foldr Z.max x l) (x :: l) ∧ foldr Z.max x l ∈ x :: l.
Proof.
  induction l as [|y l [IH1 IH2]]; simpl.
  - split; [by repeat constructor|by left].
  - apply Forall_cons in IH1 as [Hx Hl]. split.
    + constructor; [lia|]. constructor; [lia|].
      eapply Forall_impl; [exact Hl|]. simpl. intros; lia.
    + destruct (Z.max_spec y (foldr Z.max x l)) as [[_ ->]|[_ ->]].
      * apply elem_of_cons in IH2 as [->|?]; [by left|by right; right].
      * right. by left.
Qed.

Lemma validate_and_report_reads_spec (reads : list str) (lo hi : Z) :
  match validate_and_report_reads reads lo hi with
  | Done (n, smallest, largest) =>
      length reads = 2000%nat ∧ n = 2000 ∧
      Forall (λ r, lo ≤ len r ≤ hi) reads ∧
      Forall (λ r, smallest ≤ len r ≤ largest) reads ∧
      (∃ r, r ∈ reads ∧ len r = smallest) ∧ (∃ r, r ∈ reads ∧ len r = largest)
  | Failed e =>
      e = AssertionError ∧
      ¬ (length reads = 2000%nat ∧ Forall (λ r, lo ≤ len r ≤ hi) reads)
  end.
Proof.
  unfold validate_and_report_reads.
  destruct (Z.eqb_spec (Z.of_nat (length reads)) 2000) as [Hn|Hn]; simpl.
  2: { split; [done|]. intros [? _]. lia. }
  destruct (bad_positions 0 reads lo hi) as [|b bad] eqn:Hbad.
  2: { split; [done|]. intros [_ Hall].
       apply (proj2 (bad_positions_nil 0 reads lo hi)) in Hall. congruence. }
  apply bad_positions_nil in Hbad.
  destruct reads as [|r reads]; [simpl in Hn; lia|]. rewrite fmap_cons.
  destruct (foldr_min_spec (len r) (len <$> reads)) as [Hmin Hmin_in].
  destruct (foldr_max_spec (len r) (len <$> reads)) as [Hmax Hmax_in].
  rewrite <- fmap_cons in Hmin, Hmin_in, Hmax, Hmax_in.
  rewrite Forall_fmap in Hmin, Hmax.
  apply list_elem_of_fmap in Hmin_in as (r1 & Hr1 & Hin1).
  apply list_elem_of_fmap in Hmax_in as (r2 & Hr2 & Hin2).
  split; [lia|]. split; [done|]. split; [done|]. split.
  - rewrite Forall_forall in Hmin, Hmax |- *. intros y Hy.
    specialize (Hmin y Hy). specialize (Hmax y Hy). simpl in *. lia.
  - split; [by exists r1|by exists r2].
Qed.

(** X19. [validate_and_report_reads] passes exactly when there are 2000
    reads, each of a length between [lo] and [hi]; otherwise it fails on an
    assertion.  When it passes, the smallest and the largest length it
    reports are lengths of reads, and bound the length of every read. *)
Theorem validate_and_report_reads_passes (reads : list str) (lo hi : Z) :
  match validate_and_report_reads reads lo hi with
  | Done (n, smallest, largest) =>
      length reads = 2000%nat ∧ n = 2000 ∧
      Forall (λ r, lo ≤ len r ≤ hi) reads ∧
      Forall (λ r, smallest ≤ len r ≤ largest) reads ∧
      (∃ r, r ∈ reads ∧ len r = smallest) ∧ (∃ r, r ∈ reads ∧ len r = largest)
  | Failed e =>
      e = AssertionError ∧
      ¬ (length reads = 2000%nat ∧ Forall (λ r, lo ≤ len r ≤ hi) reads)
  end.
Proof. apply validate_and_report_reads_spec. Qed.

(** X20. The sampler and the check compose as in [main]: 2000 reads sampled
    with [0 <= lo <= hi <= len(seq)] pass [validate_and_report_reads] with
    the same bounds, whatever the generator draws, and the lengths reported
    lie between [lo] and [hi]. *)
Theorem sampled_reads_pass_validation (draw : nat → Z) (fuel : nat) (seq : str)
    (lo hi : Z) :
  0 ≤ lo → lo ≤ hi → hi ≤ len seq → (2000 ≤ fuel)%nat →
  ∃ reads smallest largest,
    sample_reads draw fuel seq 2000 (lo, hi) = Done reads ∧
    validate_and_report_reads reads lo hi = Done (2000, smallest, largest) ∧
    lo ≤ smallest ∧ smallest ≤ largest ∧ largest ≤ hi.
Proof.
  intros Hlo Hhi HL Hfuel.
  destruct (sample_reads_in_range draw fuel seq 2000 lo hi Hlo Hhi HL ltac:(lia))
    as (reads & Hs & Hlen & Hall).
  assert (Hrange : Forall (λ r, lo ≤ len r ≤ hi) reads).
  { eapply Forall_impl; [exact Hall|]. by intros r [? _]. }
  pose proof (validate_and_report_reads_spec reads lo hi) as Hv.
  destruct (validate_and_report_reads reads lo hi) as [[[n smallest] largest]|e] eqn:E.
  - destruct Hv as (_ & -> & _ & Hbounds & (r1 & Hin1 & Hr1) & (r2 & Hin2 & Hr2)).
    exists reads, smallest, largest. split; [done|]. split; [done|].
    rewrite Forall_forall in Hrange, Hbounds.
    pose proof (Hrange r1 Hin1). pose proof (Hrange r2 Hin2).
    pose proof (Hbounds r1 Hin1). lia.
  - destruct Hv as [_ Hno]. exfalso. apply Hno. split; [lia|done].
Qed.

(** The call of [main], on a short sequence. *)
Lemma sampled_reads_pass_validation_witness :
  ∃ reads smallest largest,
    sample_reads (λ n, Z.of_nat n) 2000 (lit "ACGTTGCA") 2000 (2, 4) = Done reads ∧
    validate_and_report_reads reads 2 4 = Done (2000, smallest, largest) ∧
    2 ≤ smallest ∧ smallest ≤ largest ∧ largest ≤ 4.
Proof.
  apply (sampled_reads_pass_validation (λ n, Z.of_nat n) 2000 (lit "ACGTTGCA") 2 4);
    [lia|lia|by vm_compute|lia].
Defined.

(** ** From the sampler to the assembled sequence *)

(** X21. Sampling and assembling compose as in [main]: when
    [0 <= lo <= hi <= len(seq)], whatever the generator draws, whatever the
    order of the candidate sets and whatever the thresholds, the engine
    returns on the sampled reads a string made of characters of [seq] only,
    in which every sampled read occurs. *)
Theorem sampled_reads_assemble (order : enumeration) (draw : nat → Z) (fuel : nat)
    (seq : str) (n_reads lo hi k min_olap : Z) :
  (∀ st i s, order st i s ≡ₚ elements s) →
  0 ≤ lo → lo ≤ hi → hi ≤ len seq → (Z.to_nat n_reads ≤ fuel)%nat →
  ∃ reads r,
    sample_reads draw fuel seq n_reads (lo, hi) = Done reads ∧
    greedy_assemble_indexed order (store_of (Some <$> reads)) 1 k min_olap = Returned r ∧
    (∀ c, c ∈ run_out r → c ∈ seq) ∧
    Forall (λ f, infix_of f (run_out r)) reads.
Proof.
  intros Hperm Hlo Hhi HL Hfuel.
  destruct (sample_reads_in_range draw fuel seq n_reads lo hi Hlo Hhi HL Hfuel)
    as (reads & Hs & _ & Hall).
  assert (Hin : store_of (Some <$> reads) !! 1%positive = Some (Some <$> reads))
    by apply lookup_singleton_eq.
  destruct (run_contains_reads order Hperm _ _ _ k min_olap Hin) as (r & Hr & Hsub).
  destruct (run_alphabet order Hperm _ _ _ k min_olap Hin) as (r' & Hr' & Halpha).
  rewrite Hr in Hr'. injection Hr' as <-.
  exists reads, r. split; [done|]. split; [done|]. split.
  - intros c Hc. destruct (Halpha c Hc) as (i & f & Hi & Hcf).
    apply list_lookup_fmap_Some in Hi as (f' & [= ->] & Hf').
    rewrite Forall_forall in Hall.
    destruct (Hall f' (list_elem_of_lookup_2 _ _ _ Hf')) as [_ (pre & post & ->)].
    rewrite !elem_of_app. by right; left.
  - apply Forall_forall. intros f Hf. apply list_elem_of_lookup in Hf as [i Hi].
    apply (Hsub i f). by rewrite list_lookup_fmap, Hi.
Qed.

(** Three reads of two to four characters, assembled with [k = 2]. *)
Lemma sampled_reads_assemble_witness :
  ∃ reads r,
    sample_reads (λ n, Z.of_nat n) 3 (lit "ACGTTGCA") 3 (2, 4) = Done reads ∧
    greedy_assemble_indexed by_elements (store_of (Some <$> reads)) 1 2 2 = Returned r ∧
    (∀ c, c ∈ run_out r → c ∈ lit "ACGTTGCA") ∧
    Forall (λ f, infix_of f (run_out r)) reads.
Proof.
  apply (sampled_reads_assemble by_elements (λ n, Z.of_nat n) 3 (lit "ACGTTGCA") 3 2 4 2 2
           by_elements_perm); [lia|lia|by vm_compute|lia].
Defined.

(** ** The diagnostics of the report *)

Lemma is_infix_spec (f g : str) : is_infix f g = true ↔ infix_of f g.
Proof.
  induction g as [|c g IH]; simpl.
  - destruct (bool_decide_reflect (f `prefix_of` [])) as [[post Hp]|Hn].
    + split; [|done]. intros _. exists [], post. done.
    + split; [done|]. intros (pre & post & Heq). exfalso. apply Hn.
      symmetry in Heq. apply app_eq_nil in Heq as [_ Heq].
      apply app_eq_nil in Heq as [-> _]. by exists [].
  - destruct (bool_decide_reflect (f `prefix_of` c :: g)) as [[post Hp]|Hn].
    + split; [|done]. intros _. exists [], post. done.
    + rewrite IH. split.
      * intros (pre & post & ->). by exists (c :: pre), post.
      * intros (pre & post & Heq). destruct pre as [|c' pre].
        -- exfalso. apply Hn. by exists post.
        -- injection Heq as -> ->. by exists pre, post.
Qed.

Lemma infix_of_antisym (a b : str) : infix_of a b → infix_of b a → a = b.
Proof.
  intros (p & q & Hb) (p' & q' & Ha).
  pose proof (f_equal length Ha) as La. pose proof (f_equal length Hb) as Lb.
  rewrite !length_app in La, Lb.
  destruct p; [|simpl in Lb; lia]. destruct q; [|simpl in Lb; lia].
  by rewrite Hb, app_nil_r.
Qed.

(** X22. The diagnostics of the report agree with each other: the exact
    match is true exactly when the assembled sequence contains the original
    and the original contains the assembled sequence. *)
Theorem diagnostics_consistent (assembled seq : str) :
  let '(exact_match, contains_original, assembled_contains) :=
    diagnostics assembled seq in
  exact_match = contains_original && assembled_contains.
Proof.
  unfold diagnostics.
  destruct (bool_decide_reflect (assembled = seq)) as [->|Hne].
  - symmetry. apply andb_true_iff. split; apply is_infix_spec, infix_of_refl.
  - symmetry. apply andb_false_iff.
    destruct (is_infix seq assembled) eqn:E1; [|by left].
    destruct (is_infix assembled seq) eqn:E2; [|by right].
    apply is_infix_spec in E1, E2. exfalso. apply Hne. by apply infix_of_antisym.
Qed.

(** ** The properties of runs at concrete inputs *)

(** X8 on ["ACGTACG"] and ["TACGTTT"], which merge once. *)
Lemma merge_only_unbinds_absorbed_witness :
  ∃ r, greedy_assemble_indexed by_elements
         (store_of (fragments ["ACGTACG"; "TACGTTT"])) 1 4 4 = Returned r ∧
    Forall (λ ev, ∀ q,
              bucket (st_idx (ev_after ev)) q =
              bucket (st_idx (ev_before ev)) q ∖ {[ev_j ev]})
      (concat (run_passes r)).
Proof.
  apply (merge_only_unbinds_absorbed by_elements by_elements_perm
           (store_of (fragments ["ACGTACG"; "TACGTTT"])) 1
           (fragments ["ACGTACG"; "TACGTTT"]) 4 4); [lia|reflexivity].
Defined.

(** X9 on the same two fragments. *)
Lemma merges_keep_both_reads_witness :
  ∃ r, greedy_assemble_indexed by_elements
         (store_of (fragments ["ACGTACG"; "TACGTTT"])) 1 4 4 = Returned r ∧
    Forall (λ ev, ev_old_i ev `prefix_of` ev_merged ev ∧
                  ev_old_j ev `suffix_of` ev_merged ev)
      (concat (run_passes r)).
Proof.
  apply (merges_keep_both_reads by_elements by_elements_perm
           (store_of (fragments ["ACGTACG"; "TACGTTT"])) 1
           (fragments ["ACGTACG"; "TACGTTT"]) 4 4); reflexivity.
Defined.

(** X10 on the same two fragments. *)
Lemma output_contains_reads_witness :
  ∃ r, greedy_assemble_indexed by_elements
         (store_of (fragments ["ACGTACG"; "TACGTTT"])) 1 4 4 = Returned r ∧
    ∀ i f, fragments ["ACGTACG"; "TACGTTT"] !! i = Some (Some f) →
      infix_of f (run_out r).
Proof.
  apply (output_contains_reads by_elements by_elements_perm
           (store_of (fragments ["ACGTACG"; "TACGTTT"])) 1
           (fragments ["ACGTACG"; "TACGTTT"]) 4 4); reflexivity.
Defined.

(** X11 on the same two fragments. *)
Lemma output_alphabet_witness :
  ∃ r, greedy_assemble_indexed by_elements
         (store_of (fragments ["ACGTACG"; "TACGTTT"])) 1 4 4 = Returned r ∧
    ∀ c, c ∈ run_out r →
      ∃ i f, fragments ["ACGTACG"; "TACGTTT"] !! i = Some (Some f) ∧ c ∈ f.
Proof.
  apply (output_alphabet by_elements by_elements_perm
           (store_of (fragments ["ACGTACG"; "TACGTTT"])) 1
           (fragments ["ACGTACG"; "TACGTTT"]) 4 4); reflexivity.
Defined.

(** X12 on three fragments that chain into one. *)
Lemma absorbed_once_and_for_all_witness :
  ∃ r ys, greedy_assemble_indexed by_elements
            (store_of (fragments ["ACGTACG"; "TACGTTT"; "GTTTCC"])) 1 4 4 = Returned r ∧
    st_heap (run_final r) !! run_reads r = Some ys ∧
    NoDup (ev_j <$> concat (run_passes r)) ∧
    Forall (λ ev, ys !! ev_j ev = Some None) (concat (run_passes r)).
Proof.
  apply (absorbed_once_and_for_all by_elements by_elements_perm
           (store_of (fragments ["ACGTACG"; "TACGTTT"; "GTTTCC"])) 1
           (fragments ["ACGTACG"; "TACGTTT"; "GTTTCC"]) 4 4); reflexivity.
Defined.

(** X13 on the same three fragments. *)
Lemma run_accounting_witness :
  ∃ r ys, greedy_assemble_indexed by_elements
            (store_of (fragments ["ACGTACG"; "TACGTTT"; "GTTTCC"])) 1 4 4 = Returned r ∧
    st_heap (run_final r) !! run_reads r = Some ys ∧
    Z.of_nat (length (run_out r)) + overlap_total (concat (run_passes r)) =
      Z.of_nat (total_len (fragments ["ACGTACG"; "TACGTTT"; "GTTTCC"])) ∧
    (active ys + length (concat (run_passes r)) =
     active (fragments ["ACGTACG"; "TACGTTT"; "GTTTCC"]))%nat.
Proof.
  apply (run_accounting by_elements by_elements_perm
           (store_of (fragments ["ACGTACG"; "TACGTTT"; "GTTTCC"])) 1
           (fragments ["ACGTACG"; "TACGTTT"; "GTTTCC"]) 4 4); reflexivity.
Defined.


(** X15 with [k = 0] on two fragments that overlap by four characters. *)
Lemma degenerate_threshold_no_merge_witness :
  ∃ r, greedy_assemble_indexed by_elements
         (store_of (fragments ["ACGTACG"; "TACGTTT"])) 1 0 4 = Returned r ∧
    run_passes r = [[]] ∧
    st_heap (run_final r) !! run_reads r = Some (fragments ["ACGTACG"; "TACGTTT"]) ∧
    run_out r = concat (sort_by_len_desc (contigs_of (fragments ["ACGTACG"; "TACGTTT"]))).
Proof.
  apply (degenerate_threshold_no_merge by_elements by_elements_perm
           (store_of (fragments ["ACGTACG"; "TACGTTT"])) 1
           (fragments ["ACGTACG"; "TACGTTT"]) 0 4); [reflexivity|by left].
Defined.

(** ** How the engine chooses and scans *)







Section EngineChoices.

Variable order : enumeration.
Hypothesis order_perm : ∀ st i s, order st i s ≡ₚ elements s.


(** X24. The choice is greedy: at each merge, no other fragment that is
    [Active], not empty, and in the bucket of the last [k] characters of
    the absorbing fragment overlaps it by more than the partner chosen. *)
Theorem merges_take_best_partner (h : store) (reads_in : loc) (xs : pylist)
    (k min_olap : Z) :
  h !! reads_in = Some xs →
  ∃ r, greedy_assemble_indexed order h reads_in k min_olap = Returned r ∧
    Forall (λ ev, ∀ ys j rj,
              st_heap (ev_before ev) !! run_reads r = Some ys →
              j ≠ ev_i ev →
              j ∈ bucket (st_idx (ev_before ev)) (slice_from (ev_old_i ev) (- k)) →
              ys !! j = Some (Some rj) → rj ≠ [] →
              longest_overlap (ev_old_i ev) rj min_olap ≤ ev_ol ev)
      (concat (run_passes r)).
Proof.
  intros Hin.
  destruct (greedy_assemble_indexed_spec order order_perm k min_olap h reads_in xs Hin)
    as (r & Hr & Hok).
  exists r. split; [done|].
  eapply Forall_impl; [exact (chain_events _ _ _ _ _ _ (ro_chain _ _ _ _ _ _ Hok))|].
  intros ev [zs Hm] ys j rj Hys Hji Hb Hj Hne.
  pose proof (proj1 (mo_before _ _ _ _ _ Hm)) as Hzs.
  rewrite Hys in Hzs. injection Hzs as ->.
  apply (mo_best _ _ _ _ _ Hm j rj). split; [done|]. split; [|done].
  by apply elem_of_bucket.
Qed.



End EngineChoices.


(** X24 on a fragment with two candidate partners. *)
Lemma merges_take_best_partner_witness :
  ∃ r, greedy_assemble_indexed by_elements
         (store_of (fragments ["GGACGT"; "ACGTAA"; "ACGTCC"])) 1 4 4 = Returned r ∧
    Forall (λ ev, ∀ ys j rj,
              st_heap (ev_before ev) !! run_reads r = Some ys →
              j ≠ ev_i ev →
              j ∈ bucket (st_idx (ev_before ev)) (slice_from (ev_old_i ev) (- 4)) →
              ys !! j = Some (Some rj) → rj ≠ [] →
              longest_overlap (ev_old_i ev) rj 4 ≤ ev_ol ev)
      (concat (run_passes r)).
Proof.
  apply (merges_take_best_partner by_elements by_elements_perm
           (store_of (fragments ["GGACGT"; "ACGTAA"; "ACGTCC"])) 1
           (fragments ["GGACGT"; "ACGTAA"; "ACGTCC"]) 4 4); reflexivity.
Defined.


